(** * SentVideoQualityThrottler

    A shallow embedding of [src/utils/webrtc/SentVideoQualityThrottler.js]
    and the properties of its quality decision, its threshold setters, its
    grace period after speaking and its subscriptions.

    The throttler is single threaded and event driven: every handler runs to
    completion on the object it is bound to.  The embedding therefore threads
    one [World] value through the handlers.  The world holds the fields of the
    throttler together with the collaborators the handlers read or mutate (the
    local media model, the participant collection, the subscription lists of
    the emitters, the timers of [window]) and the calls the throttler makes on
    collaborators whose result it never reads (the video constrainer, the
    listeners registered with [on], the console). *)

From Stdlib Require Import ZArith Lia.
From stdpp Require Import gmap strings list.

#[local] Open Scope Z_scope.

(** ** Quality scale *)

(** Modelled from the spec: the [QUALITY] table imported from
    [./VideoConstrainer], a file that is not part of the sources at hand.  The
    spec orders the five levels [THUMBNAIL < VERY_LOW < LOW < MEDIUM < HIGH]
    and compares them by ordinal value; the loops of the throttler step through
    them with [i++], so the levels are consecutive integers. *)
Module QUALITY.
Definition THUMBNAIL : Z := 0.
Definition VERY_LOW : Z := 1.
Definition LOW : Z := 2.
Definition MEDIUM : Z := 3.
Definition HIGH : Z := 4.
End QUALITY.

(** ** Data model *)

(** The four attributes of the local media model that the throttler reads with
    [get]. *)
Record LocalMediaModel := {
  videoAvailable : bool;
  videoEnabled : bool;
  audioEnabled : bool;
  speaking : bool
}.

(** A participant model: its identity and the two attributes read by the
    throttler. *)
Record CallParticipantModel := {
  peerId : Z;
  remoteVideoAvailable : bool;
  remoteAudioAvailable : bool
}.

(** The objects the throttler subscribes to. *)
Inductive Emitter :=
| TheLocalMediaModel
| TheCallParticipantCollection
| TheCallParticipantModel (peer : Z)
| TheSignaling.

(** The bound methods created by the constructor; a subscription is identified
    by the bound function that was registered. *)
Inductive Bound :=
| _handleSignalingMessageBound
| _handleLocalVideoAvailableChangeBound
| _handleAddParticipantBound
| _handleRemoveParticipantBound
| _handleLocalAudioEnabledChangeBound
| _handleLocalSpeakingChangeBound
| _adjustVideoQualityIfNeededBound.

#[global] Instance Emitter_eq_dec : EqDecision Emitter.
Proof. solve_decision. Defined.

#[global] Instance Bound_eq_dec : EqDecision Bound.
Proof. solve_decision. Defined.

Definition Subscription : Type := Emitter * string * Bound.

(** What the throttler writes to the console. *)
Inductive ConsoleEntry :=
| ConsoleWarn (quality thresholdHere thresholdBelow : Z)
| ConsoleDebug (text : string) (threshold : gmap Z Z).

(** The only exception the throttler raises itself. *)
Inductive Error :=
| NoThresholdForQuality (quality : Z).

Record World := {
  (* collaborators *)
  localMediaModel : LocalMediaModel;
  callParticipantModels : list CallParticipantModel;
  subscriptions : list Subscription;
  pendingTimeouts : list (Z * Z);
  nextTimeoutHandle : Z;
  now : Z;
  (* fields of the throttler *)
  _handlers : gmap string (list nat);
  _gracePeriodAfterSpeakingTimeout : option Z;
  _speakingOrInGracePeriodAfterSpeaking : bool;
  _availableVideosThreshold : gmap Z Z;
  _availableAudiosThreshold : gmap Z Z;
  (* calls made on collaborators *)
  appliedConstraints : list Z;
  delivered : list (nat * string * gmap Z Z);
  console : list ConsoleEntry
}.

(** Field updates. *)
Definition withLocalMediaModel (x : LocalMediaModel) (w : World) : World :=
  {| localMediaModel := x;
     callParticipantModels := callParticipantModels w;
     subscriptions := subscriptions w;
     pendingTimeouts := pendingTimeouts w;
     nextTimeoutHandle := nextTimeoutHandle w;
     now := now w;
     _handlers := _handlers w;
     _gracePeriodAfterSpeakingTimeout := _gracePeriodAfterSpeakingTimeout w;
     _speakingOrInGracePeriodAfterSpeaking := _speakingOrInGracePeriodAfterSpeaking w;
     _availableVideosThreshold := _availableVideosThreshold w;
     _availableAudiosThreshold := _availableAudiosThreshold w;
     appliedConstraints := appliedConstraints w;
     delivered := delivered w;
     console := console w |}.

Definition withCallParticipantModels (x : list CallParticipantModel) (w : World) : World :=
  {| localMediaModel := localMediaModel w;
     callParticipantModels := x;
     subscriptions := subscriptions w;
     pendingTimeouts := pendingTimeouts w;
     nextTimeoutHandle := nextTimeoutHandle w;
     now := now w;
     _handlers := _handlers w;
     _gracePeriodAfterSpeakingTimeout := _gracePeriodAfterSpeakingTimeout w;
     _speakingOrInGracePeriodAfterSpeaking := _speakingOrInGracePeriodAfterSpeaking w;
     _availableVideosThreshold := _availableVideosThreshold w;
     _availableAudiosThreshold := _availableAudiosThreshold w;
     appliedConstraints := appliedConstraints w;
     delivered := delivered w;
     console := console w |}.

Definition withSubscriptions (x : list Subscription) (w : World) : World :=
  {| localMediaModel := localMediaModel w;
     callParticipantModels := callParticipantModels w;
     subscriptions := x;
     pendingTimeouts := pendingTimeouts w;
     nextTimeoutHandle := nextTimeoutHandle w;
     now := now w;
     _handlers := _handlers w;
     _gracePeriodAfterSpeakingTimeout := _gracePeriodAfterSpeakingTimeout w;
     _speakingOrInGracePeriodAfterSpeaking := _speakingOrInGracePeriodAfterSpeaking w;
     _availableVideosThreshold := _availableVideosThreshold w;
     _availableAudiosThreshold := _availableAudiosThreshold w;
     appliedConstraints := appliedConstraints w;
     delivered := delivered w;
     console := console w |}.

Definition withTimeouts (pending : list (Z * Z)) (next : Z) (w : World) : World :=
  {| localMediaModel := localMediaModel w;
     callParticipantModels := callParticipantModels w;
     subscriptions := subscriptions w;
     pendingTimeouts := pending;
     nextTimeoutHandle := next;
     now := now w;
     _handlers := _handlers w;
     _gracePeriodAfterSpeakingTimeout := _gracePeriodAfterSpeakingTimeout w;
     _speakingOrInGracePeriodAfterSpeaking := _speakingOrInGracePeriodAfterSpeaking w;
     _availableVideosThreshold := _availableVideosThreshold w;
     _availableAudiosThreshold := _availableAudiosThreshold w;
     appliedConstraints := appliedConstraints w;
     delivered := delivered w;
     console := console w |}.

Definition withNow (x : Z) (w : World) : World :=
  {| localMediaModel := localMediaModel w;
     callParticipantModels := callParticipantModels w;
     subscriptions := subscriptions w;
     pendingTimeouts := pendingTimeouts w;
     nextTimeoutHandle := nextTimeoutHandle w;
     now := x;
     _handlers := _handlers w;
     _gracePeriodAfterSpeakingTimeout := _gracePeriodAfterSpeakingTimeout w;
     _speakingOrInGracePeriodAfterSpeaking := _speakingOrInGracePeriodAfterSpeaking w;
     _availableVideosThreshold := _availableVideosThreshold w;
     _availableAudiosThreshold := _availableAudiosThreshold w;
     appliedConstraints := appliedConstraints w;
     delivered := delivered w;
     console := console w |}.

Definition withHandlers (x : gmap string (list nat)) (w : World) : World :=
  {| localMediaModel := localMediaModel w;
     callParticipantModels := callParticipantModels w;
     subscriptions := subscriptions w;
     pendingTimeouts := pendingTimeouts w;
     nextTimeoutHandle := nextTimeoutHandle w;
     now := now w;
     _handlers := x;
     _gracePeriodAfterSpeakingTimeout := _gracePeriodAfterSpeakingTimeout w;
     _speakingOrInGracePeriodAfterSpeaking := _speakingOrInGracePeriodAfterSpeaking w;
     _availableVideosThreshold := _availableVideosThreshold w;
     _availableAudiosThreshold := _availableAudiosThreshold w;
     appliedConstraints := appliedConstraints w;
     delivered := delivered w;
     console := console w |}.

Definition withGraceTimeout (x : option Z) (w : World) : World :=
  {| localMediaModel := localMediaModel w;
     callParticipantModels := callParticipantModels w;
     subscriptions := subscriptions w;
     pendingTimeouts := pendingTimeouts w;
     nextTimeoutHandle := nextTimeoutHandle w;
     now := now w;
     _handlers := _handlers w;
     _gracePeriodAfterSpeakingTimeout := x;
     _speakingOrInGracePeriodAfterSpeaking := _speakingOrInGracePeriodAfterSpeaking w;
     _availableVideosThreshold := _availableVideosThreshold w;
     _availableAudiosThreshold := _availableAudiosThreshold w;
     appliedConstraints := appliedConstraints w;
     delivered := delivered w;
     console := console w |}.

Definition withSpeakingOrInGrace (x : bool) (w : World) : World :=
  {| localMediaModel := localMediaModel w;
     callParticipantModels := callParticipantModels w;
     subscriptions := subscriptions w;
     pendingTimeouts := pendingTimeouts w;
     nextTimeoutHandle := nextTimeoutHandle w;
     now := now w;
     _handlers := _handlers w;
     _gracePeriodAfterSpeakingTimeout := _gracePeriodAfterSpeakingTimeout w;
     _speakingOrInGracePeriodAfterSpeaking := x;
     _availableVideosThreshold := _availableVideosThreshold w;
     _availableAudiosThreshold := _availableAudiosThreshold w;
     appliedConstraints := appliedConstraints w;
     delivered := delivered w;
     console := console w |}.

Definition withVideosThreshold (x : gmap Z Z) (w : World) : World :=
  {| localMediaModel := localMediaModel w;
     callParticipantModels := callParticipantModels w;
     subscriptions := subscriptions w;
     pendingTimeouts := pendingTimeouts w;
     nextTimeoutHandle := nextTimeoutHandle w;
     now := now w;
     _handlers := _handlers w;
     _gracePeriodAfterSpeakingTimeout := _gracePeriodAfterSpeakingTimeout w;
     _speakingOrInGracePeriodAfterSpeaking := _speakingOrInGracePeriodAfterSpeaking w;
     _availableVideosThreshold := x;
     _availableAudiosThreshold := _availableAudiosThreshold w;
     appliedConstraints := appliedConstraints w;
     delivered := delivered w;
     console := console w |}.

Definition withAudiosThreshold (x : gmap Z Z) (w : World) : World :=
  {| localMediaModel := localMediaModel w;
     callParticipantModels := callParticipantModels w;
     subscriptions := subscriptions w;
     pendingTimeouts := pendingTimeouts w;
     nextTimeoutHandle := nextTimeoutHandle w;
     now := now w;
     _handlers := _handlers w;
     _gracePeriodAfterSpeakingTimeout := _gracePeriodAfterSpeakingTimeout w;
     _speakingOrInGracePeriodAfterSpeaking := _speakingOrInGracePeriodAfterSpeaking w;
     _availableVideosThreshold := _availableVideosThreshold w;
     _availableAudiosThreshold := x;
     appliedConstraints := appliedConstraints w;
     delivered := delivered w;
     console := console w |}.

Definition withAppliedConstraints (x : list Z) (w : World) : World :=
  {| localMediaModel := localMediaModel w;
     callParticipantModels := callParticipantModels w;
     subscriptions := subscriptions w;
     pendingTimeouts := pendingTimeouts w;
     nextTimeoutHandle := nextTimeoutHandle w;
     now := now w;
     _handlers := _handlers w;
     _gracePeriodAfterSpeakingTimeout := _gracePeriodAfterSpeakingTimeout w;
     _speakingOrInGracePeriodAfterSpeaking := _speakingOrInGracePeriodAfterSpeaking w;
     _availableVideosThreshold := _availableVideosThreshold w;
     _availableAudiosThreshold := _availableAudiosThreshold w;
     appliedConstraints := x;
     delivered := delivered w;
     console := console w |}.

Definition withDelivered (x : list (nat * string * gmap Z Z)) (w : World) : World :=
  {| localMediaModel := localMediaModel w;
     callParticipantModels := callParticipantModels w;
     subscriptions := subscriptions w;
     pendingTimeouts := pendingTimeouts w;
     nextTimeoutHandle := nextTimeoutHandle w;
     now := now w;
     _handlers := _handlers w;
     _gracePeriodAfterSpeakingTimeout := _gracePeriodAfterSpeakingTimeout w;
     _speakingOrInGracePeriodAfterSpeaking := _speakingOrInGracePeriodAfterSpeaking w;
     _availableVideosThreshold := _availableVideosThreshold w;
     _availableAudiosThreshold := _availableAudiosThreshold w;
     appliedConstraints := appliedConstraints w;
     delivered := x;
     console := console w |}.

Definition withConsole (x : list ConsoleEntry) (w : World) : World :=
  {| localMediaModel := localMediaModel w;
     callParticipantModels := callParticipantModels w;
     subscriptions := subscriptions w;
     pendingTimeouts := pendingTimeouts w;
     nextTimeoutHandle := nextTimeoutHandle w;
     now := now w;
     _handlers := _handlers w;
     _gracePeriodAfterSpeakingTimeout := _gracePeriodAfterSpeakingTimeout w;
     _speakingOrInGracePeriodAfterSpeaking := _speakingOrInGracePeriodAfterSpeaking w;
     _availableVideosThreshold := _availableVideosThreshold w;
     _availableAudiosThreshold := _availableAudiosThreshold w;
     appliedConstraints := appliedConstraints w;
     delivered := delivered w;
     console := x |}.

(** ** Decision function *)

(** The body of the [forEach] in [_getQualityForState]: both counters are
    advanced in one pass over the participant models. *)
Definition countAvailable (models : list CallParticipantModel) : Z * Z :=
  fold_left
    (fun counts callParticipantModel =>
       let availableVideosCount :=
         if remoteVideoAvailable callParticipantModel then fst counts + 1 else fst counts in
       let availableAudiosCount :=
         if remoteAudioAvailable callParticipantModel then snd counts + 1 else snd counts in
       (availableVideosCount, availableAudiosCount))
    models (0, 0).

(** [count >= threshold[i]]; a missing entry reads as [undefined], and no
    number is [>= undefined]. *)
Definition reaches (count : Z) (threshold : gmap Z Z) (i : Z) : bool :=
  match threshold !! i with
  | Some t => t <=? count
  | None => false
  end.

(** [for (let i = ...; i < QUALITY.HIGH; i++)], with the number of remaining
    iterations as the structural argument. *)
Fixpoint scanQualities (remaining : nat) (i : Z)
    (availableVideosCount availableAudiosCount : Z)
    (videosThreshold audiosThreshold : gmap Z Z) : Z :=
  match remaining with
  | O => QUALITY.HIGH
  | S remaining' =>
      if reaches availableVideosCount videosThreshold i
         || reaches availableAudiosCount audiosThreshold i
      then i
      else scanQualities remaining' (i + 1) availableVideosCount availableAudiosCount
             videosThreshold audiosThreshold
  end.

Definition _getQualityForState (w : World) : Z :=
  if _speakingOrInGracePeriodAfterSpeaking w then QUALITY.HIGH
  else
    let counts := countAvailable (callParticipantModels w) in
    scanQualities (Z.to_nat (QUALITY.HIGH - QUALITY.THUMBNAIL)) QUALITY.THUMBNAIL
      (fst counts) (snd counts)
      (_availableVideosThreshold w) (_availableAudiosThreshold w).

(** Modelled from the spec: [VideoConstrainer.applyConstraints], the constraint
    applier, which is not part of the sources at hand.  The throttler consumes
    no result from it, so the call is recorded. *)
Definition applyConstraints (quality : Z) (w : World) : World :=
  withAppliedConstraints (appliedConstraints w ++ [quality]) w.

Definition _adjustVideoQualityIfNeeded (w : World) : World :=
  if negb (videoAvailable (localMediaModel w)) || negb (videoEnabled (localMediaModel w))
  then w
  else
    let quality := _getQualityForState w in
    applyConstraints quality w.

(** ** Outcomes *)

(** A method either returns or throws; in both cases the mutations made so far
    stay in place. *)
Inductive Outcome :=
| Done (w : World)
| Thrown (e : Error) (w : World).

Definition andThen (o : Outcome) (k : World -> Outcome) : Outcome :=
  match o with
  | Done w => k w
  | Thrown e w => Thrown e w
  end.

Notation "o >>= k" := (andThen o k) (at level 50, left associativity).

Definition worldOf (o : Outcome) : World :=
  match o with
  | Done w => w
  | Thrown _ w => w
  end.

Definition thrown (o : Outcome) : option Error :=
  match o with
  | Done _ => None
  | Thrown e _ => Some e
  end.

(** ** Collaborators *)

(** Modelled from the spec: the [on] and [off] of the local media model, the
    participant collection, the participant models and the signaling object,
    none of which is part of the sources at hand.  The spec gives them a
    subscription per event name; as in the [on] and [off] of the throttler
    itself, [on] registers the function last and [off] removes its first
    registration, doing nothing when there is none. *)
Definition emitterOn (e : Emitter) (event : string) (b : Bound) (w : World) : World :=
  withSubscriptions (subscriptions w ++ [(e, event, b)]) w.

Fixpoint removeFirst {A} `{EqDecision A} (x : A) (l : list A) : list A :=
  match l with
  | [] => []
  | y :: l' => if decide (x = y) then l' else y :: removeFirst x l'
  end.

Definition emitterOff (e : Emitter) (event : string) (b : Bound) (w : World) : World :=
  withSubscriptions (removeFirst (e, event, b) (subscriptions w)) w.

(** Modelled from the spec: [window.setTimeout] and [window.clearTimeout].  A
    timeout is pending from the call that creates it until it fires or is
    cleared; handles are never reused, and clearing [null] or a handle that is
    not pending does nothing. *)
Definition setTimeout (delay : Z) (w : World) : Z * World :=
  let handle := nextTimeoutHandle w in
  (handle, withTimeouts (pendingTimeouts w ++ [(handle, now w + delay)]) (handle + 1) w).

Definition clearTimeout (handle : option Z) (w : World) : World :=
  match handle with
  | None => w
  | Some h =>
      withTimeouts (filter (fun t => fst t ≠ h) (pendingTimeouts w)) (nextTimeoutHandle w) w
  end.

(** ** Listeners of the throttler *)

(** [_handlers] is keyed by event name; the listeners are external functions,
    named here by a number.  [_handlers] is created as an array, so a name that
    the array owns or inherits ([length], [__proto__], [push], ...) is not an
    event name of the model: the model stands for the names that are no member
    of an array, among them the two events the throttler triggers. *)
Definition on (event : string) (handler : nat) (w : World) : World :=
  match _handlers w !! event with
  | None => withHandlers (<[event := [handler]]> (_handlers w)) w
  | Some handlers => withHandlers (<[event := handlers ++ [handler]]> (_handlers w)) w
  end.

Definition off (event : string) (handler : nat) (w : World) : World :=
  match _handlers w !! event with
  | None => w
  | Some handlers => withHandlers (<[event := removeFirst handler handlers]> (_handlers w)) w
  end.

(** [_trigger(event, [threshold])]: every listener registered for the event is
    called, in registration order, with the throttler and the threshold.  The
    listeners are taken to return normally; each call is recorded. *)
Definition _trigger (event : string) (threshold : gmap Z Z) (w : World) : World :=
  match _handlers w !! event with
  | None => w
  | Some handlers =>
      withDelivered (delivered w ++ map (fun handler => (handler, event, threshold)) handlers) w
  end.

(** ** Threshold setters *)

(** [threshold[i] > threshold[i - 1]]; false when an operand is [undefined]. *)
Definition exceedsPrevious (threshold : gmap Z Z) (i : Z) : option (Z * Z) :=
  match threshold !! i, threshold !! (i - 1) with
  | Some here, Some below => if below <? here then Some (here, below) else None
  | _, _ => None
  end.

(** [for (let i = ...; i <= QUALITY.HIGH; i++)] of [_validateThreshold]. *)
Fixpoint validateQualities (remaining : nat) (i : Z) (threshold : gmap Z Z) (w : World)
    : Outcome :=
  match remaining with
  | O => Done w
  | S remaining' =>
      match threshold !! i with
      | None => Thrown (NoThresholdForQuality i) w
      | Some _ =>
          let w' :=
            if QUALITY.THUMBNAIL <? i then
              match exceedsPrevious threshold i with
              | Some (here, below) => withConsole (console w ++ [ConsoleWarn i here below]) w
              | None => w
              end
            else w in
          validateQualities remaining' (i + 1) threshold w'
      end
  end.

Definition _validateThreshold (threshold : gmap Z Z) (w : World) : Outcome :=
  validateQualities (Z.to_nat (QUALITY.HIGH + 1 - QUALITY.THUMBNAIL)) QUALITY.THUMBNAIL
    threshold w.

Definition setAvailableVideosThreshold (availableVideosThreshold : gmap Z Z) (w : World)
    : Outcome :=
  _validateThreshold availableVideosThreshold w >>= fun w =>
  let w := withVideosThreshold availableVideosThreshold w in
  let w := _trigger "change:availableVideosThreshold" availableVideosThreshold w in
  Done (_adjustVideoQualityIfNeeded w).

Definition setAvailableAudiosThreshold (availableAudiosThreshold : gmap Z Z) (w : World)
    : Outcome :=
  _validateThreshold availableAudiosThreshold w >>= fun w =>
  let w := withAudiosThreshold availableAudiosThreshold w in
  let w := _trigger "change:availableAudiosThreshold" availableAudiosThreshold w in
  Done (_adjustVideoQualityIfNeeded w).

(** ** Signaling *)

(** The message shape given by the spec for the signaling channel. *)
Record Payload := {
  action : string;
  threshold : gmap Z Z
}.

Record Message := {
  type : string;
  payload : Payload
}.

Definition _handleSignalingMessage (message : Message) (w : World) : Outcome :=
  if negb (bool_decide (type message = "control")) then Done w
  else if bool_decide (action (payload message) = "forceAvailableVideosThreshold") then
    let w := withConsole
      (console w ++ [ConsoleDebug "Available videos threshold changed by a moderator"
                           (threshold (payload message))]) w in
    setAvailableVideosThreshold (threshold (payload message)) w
  else if bool_decide (action (payload message) = "forceAvailableAudiosThreshold") then
    let w := withConsole
      (console w ++ [ConsoleDebug "Available audios threshold changed by a moderator"
                           (threshold (payload message))]) w in
    setAvailableAudiosThreshold (threshold (payload message)) w
  else Done w.

(** ** Grace period after speaking *)

Definition _handleLocalAudioEnabledChange (w : World) : World :=
  if audioEnabled (localMediaModel w) then w
  else
    let w := clearTimeout (_gracePeriodAfterSpeakingTimeout w) w in
    let w := withGraceTimeout None w in
    let w := withSpeakingOrInGrace false w in
    _adjustVideoQualityIfNeeded w.

(** The arrow function handed to [window.setTimeout]. *)
Definition gracePeriodAfterSpeakingElapsed (w : World) : World :=
  let w := withSpeakingOrInGrace false w in
  _adjustVideoQualityIfNeeded w.

Definition _handleLocalSpeakingChange (w : World) : World :=
  if speaking (localMediaModel w) then
    let w := clearTimeout (_gracePeriodAfterSpeakingTimeout w) w in
    let w := withGraceTimeout None w in
    let w := withSpeakingOrInGrace true w in
    _adjustVideoQualityIfNeeded w
  else
    let '(handle, w) := setTimeout 5000 w in
    withGraceTimeout (Some handle) w.

(** ** Listening to changes *)

Definition _startListeningToChanges (w : World) : World :=
  let w := emitterOn TheLocalMediaModel "change:videoEnabled" _adjustVideoQualityIfNeededBound w in
  let w := emitterOn TheLocalMediaModel "change:audioEnabled" _handleLocalAudioEnabledChangeBound w in
  let w := emitterOn TheLocalMediaModel "change:speaking" _handleLocalSpeakingChangeBound w in
  let w := emitterOn TheCallParticipantCollection "add" _handleAddParticipantBound w in
  let w := emitterOn TheCallParticipantCollection "remove" _handleRemoveParticipantBound w in
  let w :=
    fold_left
      (fun w callParticipantModel =>
         emitterOn (TheCallParticipantModel (peerId callParticipantModel))
           "change:videoAvailable" _adjustVideoQualityIfNeededBound w)
      (callParticipantModels w) w in
  let w := _handleLocalSpeakingChange w in
  let w := _handleLocalAudioEnabledChange w in
  _adjustVideoQualityIfNeeded w.

Definition _stopListeningToChanges (w : World) : World :=
  let w := emitterOff TheLocalMediaModel "change:videoEnabled" _adjustVideoQualityIfNeededBound w in
  let w := emitterOff TheLocalMediaModel "change:audioEnabled" _handleLocalAudioEnabledChangeBound w in
  let w := emitterOff TheLocalMediaModel "change:speaking" _handleLocalSpeakingChangeBound w in
  let w := emitterOff TheCallParticipantCollection "add" _handleAddParticipantBound w in
  let w := emitterOff TheCallParticipantCollection "remove" _handleRemoveParticipantBound w in
  fold_left
    (fun w callParticipantModel =>
       emitterOff (TheCallParticipantModel (peerId callParticipantModel))
         "change:videoAvailable" _adjustVideoQualityIfNeededBound w)
    (callParticipantModels w) w.

Definition _handleLocalVideoAvailableChange (videoAvailable : bool) (w : World) : World :=
  if videoAvailable then _startListeningToChanges w else _stopListeningToChanges w.

Definition _handleAddParticipant (callParticipantModel : CallParticipantModel) (w : World)
    : World :=
  let w := emitterOn (TheCallParticipantModel (peerId callParticipantModel))
             "change:videoAvailable" _adjustVideoQualityIfNeededBound w in
  _adjustVideoQualityIfNeeded w.

Definition _handleRemoveParticipant (callParticipantModel : CallParticipantModel) (w : World)
    : World :=
  let w := emitterOff (TheCallParticipantModel (peerId callParticipantModel))
             "change:videoAvailable" _adjustVideoQualityIfNeededBound w in
  _adjustVideoQualityIfNeeded w.

Definition destroy (w : World) : World :=
  let w := emitterOff TheLocalMediaModel "change:videoAvailable"
             _handleLocalVideoAvailableChangeBound w in
  _stopListeningToChanges w.

(** ** Constructor *)

Definition defaultAvailableVideosThreshold : gmap Z Z :=
  <[QUALITY.THUMBNAIL := 15]> (<[QUALITY.VERY_LOW := 10]> (<[QUALITY.LOW := 7]>
    (<[QUALITY.MEDIUM := 4]> (<[QUALITY.HIGH := 2]> ∅)))).

Definition defaultAvailableAudiosThreshold : gmap Z Z :=
  <[QUALITY.THUMBNAIL := 50]> (<[QUALITY.VERY_LOW := 40]> (<[QUALITY.LOW := 30]>
    (<[QUALITY.MEDIUM := 20]> (<[QUALITY.HIGH := 10]> ∅)))).

(** [new SentVideoQualityThrottler(localMediaModel, callParticipantCollection,
    signaling)], at clock time [time] of a window with no pending timeout of
    the throttler and no subscription of the throttler on its collaborators. *)
Definition SentVideoQualityThrottler (localMediaModel : LocalMediaModel)
    (callParticipantModels : list CallParticipantModel) (time : Z) : World :=
  let w :=
    {| localMediaModel := localMediaModel;
       callParticipantModels := callParticipantModels;
       subscriptions := [];
       pendingTimeouts := [];
       nextTimeoutHandle := 1;
       now := time;
       _handlers := ∅;
       _gracePeriodAfterSpeakingTimeout := None;
       _speakingOrInGracePeriodAfterSpeaking := false;
       _availableVideosThreshold := defaultAvailableVideosThreshold;
       _availableAudiosThreshold := defaultAvailableAudiosThreshold;
       appliedConstraints := [];
       delivered := [];
       console := [] |} in
  let w := emitterOn TheSignaling "message" _handleSignalingMessageBound w in
  let w := emitterOn TheLocalMediaModel "change:videoAvailable"
             _handleLocalVideoAvailableChangeBound w in
  if videoAvailable localMediaModel then _startListeningToChanges w else w.

(** ** Events *)

(** What an emitter hands to the functions registered on it. *)
Inductive Argument :=
| NewValue (value : bool)
| Model (callParticipantModel : CallParticipantModel)
| Received (message : Message).

(** Calling a bound method with the argument of the event it is registered
    for.  (The three last methods read no argument; the other combinations are
    delivered by no emitter.) *)
Definition call (b : Bound) (a : Argument) (w : World) : Outcome :=
  match b, a with
  | _handleSignalingMessageBound, Received message => _handleSignalingMessage message w
  | _handleLocalVideoAvailableChangeBound, NewValue value =>
      Done (_handleLocalVideoAvailableChange value w)
  | _handleAddParticipantBound, Model m => Done (_handleAddParticipant m w)
  | _handleRemoveParticipantBound, Model m => Done (_handleRemoveParticipant m w)
  | _handleLocalAudioEnabledChangeBound, _ => Done (_handleLocalAudioEnabledChange w)
  | _handleLocalSpeakingChangeBound, _ => Done (_handleLocalSpeakingChange w)
  | _adjustVideoQualityIfNeededBound, _ => Done (_adjustVideoQualityIfNeeded w)
  | _, _ => Done w
  end.

Definition registered (e : Emitter) (event : string) (subs : list Subscription) : list Bound :=
  map snd (filter (fun s => fst s = (e, event)) subs).

(** Modelled from the spec: the delivery of an event by a collaborator.  The
    functions registered when the event is raised are called in registration
    order; an exception leaves the emitter at once. *)
Definition emit (e : Emitter) (event : string) (a : Argument) (w : World) : Outcome :=
  fold_left (fun o b => o >>= call b a) (registered e event (subscriptions w)) (Done w).

Inductive Attribute := VideoAvailable | VideoEnabled | AudioEnabled | Speaking.

Definition changeEvent (attribute : Attribute) : string :=
  match attribute with
  | VideoAvailable => "change:videoAvailable"
  | VideoEnabled => "change:videoEnabled"
  | AudioEnabled => "change:audioEnabled"
  | Speaking => "change:speaking"
  end.

Definition getAttribute (attribute : Attribute) (m : LocalMediaModel) : bool :=
  match attribute with
  | VideoAvailable => videoAvailable m
  | VideoEnabled => videoEnabled m
  | AudioEnabled => audioEnabled m
  | Speaking => speaking m
  end.

Definition setAttribute (attribute : Attribute) (value : bool) (m : LocalMediaModel)
    : LocalMediaModel :=
  match attribute with
  | VideoAvailable =>
      {| videoAvailable := value; videoEnabled := videoEnabled m;
         audioEnabled := audioEnabled m; speaking := speaking m |}
  | VideoEnabled =>
      {| videoAvailable := videoAvailable m; videoEnabled := value;
         audioEnabled := audioEnabled m; speaking := speaking m |}
  | AudioEnabled =>
      {| videoAvailable := videoAvailable m; videoEnabled := videoEnabled m;
         audioEnabled := value; speaking := speaking m |}
  | Speaking =>
      {| videoAvailable := videoAvailable m; videoEnabled := videoEnabled m;
         audioEnabled := audioEnabled m; speaking := value |}
  end.

Inductive RemoteAttribute := RemoteVideoAvailable | RemoteAudioAvailable.

Definition remoteChangeEvent (attribute : RemoteAttribute) : string :=
  match attribute with
  | RemoteVideoAvailable => "change:videoAvailable"
  | RemoteAudioAvailable => "change:audioAvailable"
  end.

Definition getRemoteAttribute (attribute : RemoteAttribute) (m : CallParticipantModel) : bool :=
  match attribute with
  | RemoteVideoAvailable => remoteVideoAvailable m
  | RemoteAudioAvailable => remoteAudioAvailable m
  end.

Definition setRemoteAttribute (attribute : RemoteAttribute) (value : bool)
    (m : CallParticipantModel) : CallParticipantModel :=
  match attribute with
  | RemoteVideoAvailable =>
      {| peerId := peerId m; remoteVideoAvailable := value;
         remoteAudioAvailable := remoteAudioAvailable m |}
  | RemoteAudioAvailable =>
      {| peerId := peerId m; remoteVideoAvailable := remoteVideoAvailable m;
         remoteAudioAvailable := value |}
  end.

Definition findParticipant (peer : Z) (models : list CallParticipantModel)
    : option CallParticipantModel :=
  List.find (fun m => bool_decide (peerId m = peer)) models.

(** What can happen to a throttler: its collaborators change and notify it,
    time passes, a pending timeout fires, or its owner calls a public method. *)
Inductive Event :=
| LocalMediaChanges (attribute : Attribute) (value : bool)
| ParticipantChanges (peer : Z) (attribute : RemoteAttribute) (value : bool)
| ParticipantAdded (callParticipantModel : CallParticipantModel)
| ParticipantRemoved (peer : Z)
| MessageReceived (message : Message)
| TimePasses (milliseconds : Z)
| TimeoutFires (handle : Z)
| CallSetAvailableVideosThreshold (threshold : gmap Z Z)
| CallSetAvailableAudiosThreshold (threshold : gmap Z Z)
| CallOn (event : string) (handler : nat)
| CallOff (event : string) (handler : nat)
| CallDestroy.

(** One event, run to completion; [None] when the event cannot happen in the
    world (an attribute is notified as changed only when its value changes, a
    participant is added once and removed only when present, a timeout fires
    only while pending and not before it is due). *)
Definition step (ev : Event) (w : World) : option Outcome :=
  match ev with
  | LocalMediaChanges attribute value =>
      if bool_decide (getAttribute attribute (localMediaModel w) = value) then None
      else
        let w := withLocalMediaModel (setAttribute attribute value (localMediaModel w)) w in
        Some (emit TheLocalMediaModel (changeEvent attribute) (NewValue value) w)
  | ParticipantChanges peer attribute value =>
      match findParticipant peer (callParticipantModels w) with
      | None => None
      | Some m =>
          if bool_decide (getRemoteAttribute attribute m = value) then None
          else
            let models :=
              map (fun m' => if bool_decide (peerId m' = peer)
                             then setRemoteAttribute attribute value m' else m')
                  (callParticipantModels w) in
            let w := withCallParticipantModels models w in
            Some (emit (TheCallParticipantModel peer) (remoteChangeEvent attribute)
                    (NewValue value) w)
      end
  | ParticipantAdded m =>
      match findParticipant (peerId m) (callParticipantModels w) with
      | Some _ => None
      | None =>
          let w := withCallParticipantModels (callParticipantModels w ++ [m]) w in
          Some (emit TheCallParticipantCollection "add" (Model m) w)
      end
  | ParticipantRemoved peer =>
      match findParticipant peer (callParticipantModels w) with
      | None => None
      | Some m =>
          let models :=
            filter (fun m' => peerId m' ≠ peer) (callParticipantModels w) in
          let w := withCallParticipantModels models w in
          Some (emit TheCallParticipantCollection "remove" (Model m) w)
      end
  | MessageReceived message =>
      Some (emit TheSignaling "message" (Received message) w)
  | TimePasses milliseconds =>
      if 0 <=? milliseconds then Some (Done (withNow (now w + milliseconds) w)) else None
  | TimeoutFires handle =>
      match List.find (fun t => bool_decide (fst t = handle)) (pendingTimeouts w) with
      | None => None
      | Some (_, due) =>
          if due <=? now w then
            let w := withTimeouts (filter (fun t => fst t ≠ handle) (pendingTimeouts w))
                       (nextTimeoutHandle w) w in
            Some (Done (gracePeriodAfterSpeakingElapsed w))
          else None
      end
  | CallSetAvailableVideosThreshold threshold =>
      Some (setAvailableVideosThreshold threshold w)
  | CallSetAvailableAudiosThreshold threshold =>
      Some (setAvailableAudiosThreshold threshold w)
  | CallOn event handler => Some (Done (on event handler w))
  | CallOff event handler => Some (Done (off event handler w))
  | CallDestroy => Some (Done (destroy w))
  end.

(** A run: the events one after the other.  An exception is surfaced to
    whoever raised the event, and the world goes on from where it was
    thrown. *)
Fixpoint run (events : list Event) (w : World) : option World :=
  match events with
  | [] => Some w
  | ev :: events' =>
      match step ev w with
      | None => None
      | Some o => run events' (worldOf o)
      end
  end.

(** The worlds a throttler can be in: those reached by some run from its
    construction. *)
Inductive reachable : World -> Prop :=
| reachable_new localMediaModel callParticipantModels time :
    reachable (SentVideoQualityThrottler localMediaModel callParticipantModels time)
| reachable_step ev w o :
    reachable w -> step ev w = Some o -> reachable (worldOf o).

(** * Vocabulary of the properties *)

(** ** The decision function *)

(** The counts in words: the number of participant models whose video,
    respectively audio, is available. *)
Definition availableVideosCount (w : World) : Z :=
  Z.of_nat (length (List.filter remoteVideoAvailable (callParticipantModels w))).

Definition availableAudiosCount (w : World) : Z :=
  Z.of_nat (length (List.filter remoteAudioAvailable (callParticipantModels w))).

(** The threshold of level [i] is met: the level has a video threshold that the
    available videos reach, or an audio threshold that the available audios
    reach. *)
Definition videoThresholdMet (w : World) (i : Z) : Prop :=
  exists t, _availableVideosThreshold w !! i = Some t /\ t <= availableVideosCount w.

Definition audioThresholdMet (w : World) (i : Z) : Prop :=
  exists t, _availableAudiosThreshold w !! i = Some t /\ t <= availableAudiosCount w.

Definition thresholdMet (w : World) (i : Z) : Prop :=
  videoThresholdMet w i \/ audioThresholdMet w i.

(** The video thresholds of the scenario of the spec. *)
Definition scenarioVideosThreshold : gmap Z Z :=
  <[QUALITY.THUMBNAIL := 10]> (<[QUALITY.VERY_LOW := 7]> (<[QUALITY.LOW := 4]>
    (<[QUALITY.MEDIUM := 2]> ∅))).


(** The world of the scenario: five participants with video and no audio, the
    video thresholds of the scenario, the audio thresholds of the
    constructor, nobody speaking. *)
Definition scenarioWorld : World :=
  let sending :=
    {| videoAvailable := true; videoEnabled := true; audioEnabled := true;
       speaking := false |} in
  let participant peer :=
    {| peerId := peer; remoteVideoAvailable := true; remoteAudioAvailable := false |} in
  withVideosThreshold scenarioVideosThreshold
    (SentVideoQualityThrottler sending (map participant [1; 2; 3; 4; 5]) 0).

(** ** The grace period *)

(** Every pending timeout is the one the throttler holds the handle of. *)
Definition onlyTrackedTimeoutPending (w : World) : Prop :=
  forall t, t ∈ pendingTimeouts w -> _gracePeriodAfterSpeakingTimeout w = Some (fst t).

(** A world in its grace period: the local participant stopped speaking and
    then muted the microphone, the timeout of the grace period still pending. *)
Definition mutedInGraceWorld : World :=
  let sending :=
    {| videoAvailable := true; videoEnabled := true; audioEnabled := false;
       speaking := false |} in
  withSpeakingOrInGrace true
    (withGraceTimeout (Some 7)
       (withTimeouts [(7, 5000)] 8 (SentVideoQualityThrottler sending [] 0))).

(** ** The threshold setters *)

(** The threshold table has an entry for every quality level, [HIGH]
    included. *)
Definition hasEveryQuality (threshold : gmap Z Z) : Prop :=
  forall i, QUALITY.THUMBNAIL <= i <= QUALITY.HIGH -> is_Some (threshold !! i).

(** The requirement in the words of the spec: an entry for every level except
    the maximum one. *)
Definition hasEveryQualityBelowHigh (threshold : gmap Z Z) : Prop :=
  forall i, QUALITY.THUMBNAIL <= i < QUALITY.HIGH -> is_Some (threshold !! i).

(** The listeners of an event, none when the event was never listened to. *)
Definition listeners (event : string) (w : World) : list nat :=
  default [] (_handlers w !! event).

(** A throttler that sends video in a call without participants, with one
    listener on each of its two events. *)
Definition listenedWorld : World :=
  let sending :=
    {| videoAvailable := true; videoEnabled := true; audioEnabled := true;
       speaking := false |} in
  on "change:availableAudiosThreshold" 1%nat
    (on "change:availableVideosThreshold" 0%nat (SentVideoQualityThrottler sending [] 0)).

(** The two control messages of a moderator. *)
Definition forceAvailableVideosThreshold (table : gmap Z Z) : Message :=
  {| type := "control";
     payload := {| action := "forceAvailableVideosThreshold"; threshold := table |} |}.

Definition forceAvailableAudiosThreshold (table : gmap Z Z) : Message :=
  {| type := "control";
     payload := {| action := "forceAvailableAudiosThreshold"; threshold := table |} |}.

(** A table with an entry for every level, which lowers every threshold of the
    scenario's by keeping its entries and adding one for [HIGH]. *)
Definition moderatorThreshold : gmap Z Z :=
  <[QUALITY.HIGH := 1]> scenarioVideosThreshold.

(** A world in which the local participant speaks with the microphone on while
    the throttler is out of its grace period, as after muting and unmuting in
    the middle of a sentence. *)
Definition unmutedWhileSpeakingWorld : World :=
  let sending :=
    {| videoAvailable := true; videoEnabled := true; audioEnabled := true;
       speaking := true |} in
  withSpeakingOrInGrace false (SentVideoQualityThrottler sending [] 0).

(** ** Runs *)

(** A local participant who sends video with the microphone on and does not
    speak, and the throttler created for that participant at time 0 in a call
    without other participants. *)
Definition sendingQuietly : LocalMediaModel :=
  {| videoAvailable := true; videoEnabled := true; audioEnabled := true;
     speaking := false |}.

Definition freshWorld : World := SentVideoQualityThrottler sendingQuietly [] 0.

(** The local video becomes unavailable and, a second later, available
    again. *)
Definition reenterObserving : list Event :=
  [TimePasses 1000; LocalMediaChanges VideoAvailable false;
   TimePasses 1000; LocalMediaChanges VideoAvailable true].

(** The local participant starts to speak and stops a second later. *)
Definition startSpeaking : list Event :=
  [TimePasses 1000; LocalMediaChanges Speaking true].

Definition stopSpeaking : list Event :=
  [TimePasses 1000; LocalMediaChanges Speaking false].

(** A second later the first timeout of the window, due by then, fires. *)
Definition firstTimeoutFires : list Event :=
  [TimePasses 1000; TimeoutFires 1].

(** The clock, the grace state of the throttler and the pending timeouts. *)
Definition graceState (w : World) : Z * bool * option Z * list (Z * Z) :=
  (now w, _speakingOrInGracePeriodAfterSpeaking w, _gracePeriodAfterSpeakingTimeout w,
   pendingTimeouts w).

(** ** Subscriptions *)

Definition signalingSubscription : Subscription :=
  (TheSignaling, "message", _handleSignalingMessageBound).

(** The throttler holds no subscription at all. *)
Definition holdsNoSubscription (w : World) : Prop := subscriptions w = [].

(** * Vocabulary of the further properties *)

(** ** The decision function *)

(** The decision of a throttler out of its grace period with the tables of
    the constructor, read off the two tables level by level. *)
Definition defaultDecision (availableVideos availableAudios : Z) : Z :=
  if (15 <=? availableVideos) || (50 <=? availableAudios) then QUALITY.THUMBNAIL
  else if (10 <=? availableVideos) || (40 <=? availableAudios) then QUALITY.VERY_LOW
  else if (7 <=? availableVideos) || (30 <=? availableAudios) then QUALITY.LOW
  else if (4 <=? availableVideos) || (20 <=? availableAudios) then QUALITY.MEDIUM
  else QUALITY.HIGH.

(** A call of [count] participants, the first [videos] of them with video and
    none with audio. *)
Definition callOf (videos count : nat) : list CallParticipantModel :=
  map (fun n => {| peerId := Z.of_nat n;
                   remoteVideoAvailable := bool_decide (n < videos)%nat;
                   remoteAudioAvailable := false |})
      (seq 0 count).

(** The throttler of a quiet participant who sends video in such a call. *)
Definition worldOfCall (videos count : nat) : World :=
  SentVideoQualityThrottler
    {| videoAvailable := true; videoEnabled := true; audioEnabled := true;
       speaking := false |}
    (callOf videos count) 0.

(** A call with eight available videos, and tables in which the video
    thresholds of [LOW] and [VERY_LOW] are swapped and their audio thresholds
    equal. *)
Definition swappedWorld : World :=
  withVideosThreshold
    (<[QUALITY.LOW := 10]> (<[QUALITY.VERY_LOW := 7]> defaultAvailableVideosThreshold))
    (withAudiosThreshold (<[QUALITY.LOW := 40]> defaultAvailableAudiosThreshold)
       (worldOfCall 8 9)).

(** ** The validation of a table *)

(** The warning of level [i], if the threshold of the level exceeds the one
    of the level below. *)
Definition warningAt (table : gmap Z Z) (i : Z) : list ConsoleEntry :=
  match exceedsPrevious table i with
  | Some (here, below) => [ConsoleWarn i here below]
  | None => []
  end.

(** The warnings of a table, from [VERY_LOW] to [HIGH]. *)
Definition warningsOf (table : gmap Z Z) : list ConsoleEntry :=
  warningAt table QUALITY.VERY_LOW ++ warningAt table QUALITY.LOW
  ++ warningAt table QUALITY.MEDIUM ++ warningAt table QUALITY.HIGH.

(** The thresholds do not increase with the quality. *)
Definition nonIncreasing (table : gmap Z Z) : Prop :=
  forall i here below,
    QUALITY.THUMBNAIL < i <= QUALITY.HIGH ->
    table !! i = Some here -> table !! (i - 1) = Some below -> here <= below.

(** The tables of a moderator who asks for [THUMBNAIL] from 3 videos on, and
    one in which [LOW] asks for more videos than [VERY_LOW]. *)
Definition risingThreshold : gmap Z Z :=
  <[QUALITY.LOW := 8]> moderatorThreshold.

(** ** Subscriptions of the listening phase *)

(** The subscription made on a participant model. *)
Definition participantSubscription (m : CallParticipantModel) : Subscription :=
  (TheCallParticipantModel (peerId m), "change:videoAvailable",
   _adjustVideoQualityIfNeededBound).

(** The five subscriptions that [_startListeningToChanges] makes on the local
    media model and on the collection. *)
Definition listeningSubscriptions : list Subscription :=
  [(TheLocalMediaModel, "change:videoEnabled", _adjustVideoQualityIfNeededBound);
   (TheLocalMediaModel, "change:audioEnabled", _handleLocalAudioEnabledChangeBound);
   (TheLocalMediaModel, "change:speaking", _handleLocalSpeakingChangeBound);
   (TheCallParticipantCollection, "add", _handleAddParticipantBound);
   (TheCallParticipantCollection, "remove", _handleRemoveParticipantBound)].

(** A throttler created while the local video is not available, in a call of
    three participants. *)
Definition dormantWorld : World :=
  SentVideoQualityThrottler
    {| videoAvailable := false; videoEnabled := true; audioEnabled := true;
       speaking := false |}
    (callOf 2 3) 0.

(** ** Invariants *)

(** The subscriptions the throttler makes: the two of the constructor, the
    five on the local media model and the collection, and the one on a
    participant model. *)
Definition throttlerSubscription (s : Subscription) : Prop :=
  s = signalingSubscription
  \/ s = (TheLocalMediaModel, "change:videoAvailable", _handleLocalVideoAvailableChangeBound)
  \/ s ∈ listeningSubscriptions
  \/ exists peer, s = (TheCallParticipantModel peer, "change:videoAvailable",
                       _adjustVideoQualityIfNeededBound).

(** The record the constructor starts from, before it subscribes. *)
Definition blankWorld (localMediaModel : LocalMediaModel)
    (callParticipantModels : list CallParticipantModel) (time : Z) : World :=
  {| localMediaModel := localMediaModel;
     callParticipantModels := callParticipantModels;
     subscriptions := [];
     pendingTimeouts := [];
     nextTimeoutHandle := 1;
     now := time;
     _handlers := ∅;
     _gracePeriodAfterSpeakingTimeout := None;
     _speakingOrInGracePeriodAfterSpeaking := false;
     _availableVideosThreshold := defaultAvailableVideosThreshold;
     _availableAudiosThreshold := defaultAvailableAudiosThreshold;
     appliedConstraints := [];
     delivered := [];
     console := [] |}.

(** The constraint applier was only ever called with one of the levels. *)
Definition appliedLevels (w : World) : Prop :=
  forall quality, quality ∈ appliedConstraints w ->
                  QUALITY.THUMBNAIL <= quality <= QUALITY.HIGH.

(** The pending timeouts have distinct handles, all of them handed out
    already, as is the handle the throttler holds; none is due later than 5000
    milliseconds from now. *)
Definition timeoutsInOrder (w : World) : Prop :=
  NoDup (map fst (pendingTimeouts w))
  /\ (forall t, t ∈ pendingTimeouts w ->
                fst t < nextTimeoutHandle w /\ snd t <= now w + 5000)
  /\ (forall handle, _gracePeriodAfterSpeakingTimeout w = Some handle ->
                     handle < nextTimeoutHandle w).

(** Every subscription held is one the throttler makes. *)
Definition knownSubscriptions (w : World) : Prop :=
  forall s, s ∈ subscriptions w -> throttlerSubscription s.

(** The local media model is [m] and, if [m] does not send video, the calls on
    the constraint applier are [l]. *)
Definition appliedOnlyWhileSending (m : LocalMediaModel) (l : list Z) (w : World) : Prop :=
  localMediaModel w = m
  /\ (videoAvailable m && videoEnabled m = false -> appliedConstraints w = l).

(** ** Timeouts *)

(** The timeout of a handle, if one is pending. *)
Definition pendingTimeout (handle : Z) (w : World) : option (Z * Z) :=
  List.find (fun t => bool_decide (fst t = handle)) (pendingTimeouts w).

(** The throttler of a quiet participant, five seconds after its creation. *)
Definition fiveSecondsLater : World := withNow 5000 freshWorld.

(** A participant in the grace period after speaking, with its timeout
    pending. *)
Definition inGraceWorld : World :=
  withSpeakingOrInGrace true
    (withGraceTimeout (Some 7) (withTimeouts [(7, 5000)] 8 freshWorld)).

(** What the handlers of the grace period read and write: the local media
    model, the grace state with the clock and the pending timeouts, and the
    next handle of the window. *)
Definition timeoutState (w : World)
    : LocalMediaModel * (Z * bool * option Z * list (Z * Z)) * Z :=
  (localMediaModel w, graceState w, nextTimeoutHandle w).

(** ** Muting with a leaked timeout *)

(** The participant speaks for a second; the local video then becomes
    unavailable and available again within the grace period. *)
Definition speakThenReenter : list Event :=
  [TimePasses 1000; LocalMediaChanges Speaking true;
   TimePasses 1000; LocalMediaChanges Speaking false;
   TimePasses 500; LocalMediaChanges VideoAvailable false;
   TimePasses 500; LocalMediaChanges VideoAvailable true].

(** The microphone is muted. *)
Definition mute : list Event := [LocalMediaChanges AudioEnabled false].

(** The microphone is unmuted, the participant speaks again a second later,
    and three seconds after that the second timeout of the window, due by
    then, fires. *)
Definition speakAgainUntilSecondTimeout : list Event :=
  [LocalMediaChanges AudioEnabled true; TimePasses 1000; LocalMediaChanges Speaking true;
   TimePasses 3000; TimeoutFires 2].

(** ** The events of the throttler *)

(** The two events the throttler triggers. *)
Definition throttlerEvent (event : string) : Prop :=
  event = "change:availableVideosThreshold" \/ event = "change:availableAudiosThreshold".
(** * Properties *)

(** ** The decision function *)

Lemma countAvailable_from (models : list CallParticipantModel) (v a : Z) :
  fold_left
    (fun counts callParticipantModel =>
       let availableVideosCount :=
         if remoteVideoAvailable callParticipantModel then fst counts + 1 else fst counts in
       let availableAudiosCount :=
         if remoteAudioAvailable callParticipantModel then snd counts + 1 else snd counts in
       (availableVideosCount, availableAudiosCount))
    models (v, a)
  = (v + Z.of_nat (length (List.filter remoteVideoAvailable models)),
     a + Z.of_nat (length (List.filter remoteAudioAvailable models))).
Proof.
  revert v a.
  induction models as [|m models IH]; intros v a; simpl.
  - f_equal; lia.
  - rewrite IH.
    destruct (remoteVideoAvailable m), (remoteAudioAvailable m); simpl; f_equal; lia.
Qed.

Lemma countAvailable_counts (w : World) :
  countAvailable (callParticipantModels w) = (availableVideosCount w, availableAudiosCount w).
Proof.
  unfold countAvailable, availableVideosCount, availableAudiosCount.
  rewrite countAvailable_from. reflexivity.
Qed.

Lemma reaches_true (count : Z) (threshold : gmap Z Z) (i : Z) :
  reaches count threshold i = true <->
  exists t, threshold !! i = Some t /\ t <= count.
Proof.
  unfold reaches.
  destruct (threshold !! i) as [t|].
  - rewrite Z.leb_le. split.
    + intros H. exists t. split; [reflexivity | exact H].
    + intros (t' & Ht' & H). inversion Ht'. subst. exact H.
  - split; [discriminate | intros (t' & Ht' & _); discriminate].
Qed.

Lemma reaches_thresholdMet (w : World) (i : Z) :
  reaches (availableVideosCount w) (_availableVideosThreshold w) i
  || reaches (availableAudiosCount w) (_availableAudiosThreshold w) i = true
  <-> thresholdMet w i.
Proof.
  rewrite orb_true_iff, !reaches_true. reflexivity.
Qed.

(** The loop stops at the first level of its range that satisfies the test, and
    falls through to [HIGH] when none does. *)
Lemma scanQualities_first (remaining : nat) (i vc ac : Z) (vt aut : gmap Z Z) :
  let q := scanQualities remaining i vc ac vt aut in
  (i <= q < i + Z.of_nat remaining
   /\ reaches vc vt q || reaches ac aut q = true
   /\ forall j, i <= j < q -> reaches vc vt j || reaches ac aut j = false)
  \/ (q = QUALITY.HIGH
      /\ forall j, i <= j < i + Z.of_nat remaining ->
                   reaches vc vt j || reaches ac aut j = false).
Proof.
  revert i.
  induction remaining as [|n IH]; intros i; cbn zeta.
  - right. split; [reflexivity | intros j Hj; lia].
  - cbn [scanQualities].
    destruct (reaches vc vt i || reaches ac aut i) eqn:Hi.
    + left. split; [lia |]. split; [exact Hi | intros j Hj; lia].
    + destruct (IH (i + 1)) as [(Hq & Hmet & Hbefore) | (Hq & Hnone)].
      * left. split; [lia |]. split; [exact Hmet |].
        intros j Hj. destruct (decide (j = i)) as [-> | Hne]; [exact Hi |].
        apply Hbefore. lia.
      * right. split; [exact Hq |].
        intros j Hj. destruct (decide (j = i)) as [-> | Hne]; [exact Hi |].
        apply Hnone. lia.
Qed.

Lemma _getQualityForState_not_speaking (w : World) :
  _speakingOrInGracePeriodAfterSpeaking w = false ->
  _getQualityForState w =
  scanQualities 4 QUALITY.THUMBNAIL (availableVideosCount w) (availableAudiosCount w)
    (_availableVideosThreshold w) (_availableAudiosThreshold w).
Proof.
  intros Hquiet. unfold _getQualityForState.
  rewrite Hquiet, countAvailable_counts. reflexivity.
Qed.

(** C1. When [speakingOrInGrace] is false, the decision is the first level,
    scanning from [THUMBNAIL] upwards and leaving [HIGH] out, whose video
    threshold is reached by the number of available videos or whose audio
    threshold is reached by the number of available audios; levels below the
    decision do not have their threshold met, and when no level below [HIGH]
    has, the decision is [HIGH].  With the video thresholds
    [{THUMBNAIL: 10, VERY_LOW: 7, LOW: 4, MEDIUM: 2}], five available videos and
    no audio threshold met, the decision is [LOW]. *)
Theorem decision_is_first_met_threshold (w : World) :
  _speakingOrInGracePeriodAfterSpeaking w = false ->
  let q := _getQualityForState w in
  QUALITY.THUMBNAIL <= q <= QUALITY.HIGH
  /\ (q <> QUALITY.HIGH -> thresholdMet w q)
  /\ (forall j, QUALITY.THUMBNAIL <= j < q -> ~ thresholdMet w j)
  /\ ((forall j, QUALITY.THUMBNAIL <= j < QUALITY.HIGH -> ~ thresholdMet w j) ->
      q = QUALITY.HIGH)
  /\ (_availableVideosThreshold w = scenarioVideosThreshold ->
      availableVideosCount w = 5 ->
      (forall j, ~ audioThresholdMet w j) ->
      q = QUALITY.LOW).
Proof.
  intros Hquiet q.
  assert (Hscan : q = scanQualities 4 QUALITY.THUMBNAIL
                        (availableVideosCount w) (availableAudiosCount w)
                        (_availableVideosThreshold w) (_availableAudiosThreshold w))
    by (apply _getQualityForState_not_speaking; exact Hquiet).
  pose proof (scanQualities_first 4 QUALITY.THUMBNAIL
                (availableVideosCount w) (availableAudiosCount w)
                (_availableVideosThreshold w) (_availableAudiosThreshold w)) as Hfirst.
  cbn zeta in Hfirst. rewrite <- Hscan in Hfirst.
  unfold QUALITY.THUMBNAIL, QUALITY.HIGH in *.
  assert (Hnot : forall j, reaches (availableVideosCount w) (_availableVideosThreshold w) j
                           || reaches (availableAudiosCount w) (_availableAudiosThreshold w) j
                           = false -> ~ thresholdMet w j).
  { intros j Hj Hmet. apply reaches_thresholdMet in Hmet. congruence. }
  assert (Hgeneral :
    0 <= q <= 4
    /\ (q <> 4 -> thresholdMet w q)
    /\ (forall j, 0 <= j < q -> ~ thresholdMet w j)).
  { destruct Hfirst as [(Hq & Hmet & Hbefore) | (Hq & Hnone)].
    - split; [lia |]. split.
      + intros _. apply reaches_thresholdMet. exact Hmet.
      + intros j Hj. apply Hnot, Hbefore. exact Hj.
    - split; [lia |]. split; [intros Hne; contradiction |].
      intros j Hj. apply Hnot, Hnone. lia. }
  destruct Hgeneral as (Hrange & Hmet & Hbefore).
  split; [exact Hrange |]. split; [exact Hmet |]. split; [exact Hbefore |]. split.
  - intros Hnone. destruct (decide (q = 4)) as [Heq | Hne]; [exact Heq |].
    exfalso. apply (Hnone q); [lia | apply Hmet; exact Hne].
  - intros Hvt Hvc Hna.
    assert (Hvideo : forall j t, scenarioVideosThreshold !! j = Some t ->
                                 thresholdMet w j <-> t <= 5).
    { intros j t Hj. unfold thresholdMet, videoThresholdMet. rewrite Hvt, Hvc. split.
      - intros [(t' & Ht' & Hle) | Ha]; [congruence | destruct (Hna j Ha)].
      - intros Hle. left. exists t. split; [exact Hj | exact Hle]. }
    assert (H2 : thresholdMet w 2) by (apply (Hvideo 2 4); [reflexivity | lia]).
    assert (H0 : ~ thresholdMet w 0)
      by (intros H; apply (Hvideo 0 10) in H; [lia | reflexivity]).
    assert (H1 : ~ thresholdMet w 1)
      by (intros H; apply (Hvideo 1 7) in H; [lia | reflexivity]).
    unfold QUALITY.LOW.
    destruct (decide (q = 2)) as [Heq | Hne]; [exact Heq | exfalso].
    destruct (decide (q < 2)) as [Hlt | Hge].
    + assert (Hq : q = 0 \/ q = 1) by lia.
      destruct (decide (q = 4)) as [H4 | H4]; [lia |].
      specialize (Hmet H4). destruct Hq as [-> | ->]; contradiction.
    + apply (Hbefore 2); [lia | exact H2].
Qed.

Lemma defaultAvailableAudiosThreshold_at_least (j t : Z) :
  defaultAvailableAudiosThreshold !! j = Some t -> 10 <= t.
Proof.
  unfold defaultAvailableAudiosThreshold.
  rewrite !lookup_insert_Some, lookup_empty.
  intros H. decompose [and or] H; try discriminate;
    match goal with Heq : _ = t |- _ => rewrite <- Heq; lia end.
Qed.

(** The scenario of C1 on the code. *)
Lemma decision_is_first_met_threshold_scenario :
  _speakingOrInGracePeriodAfterSpeaking scenarioWorld = false
  /\ availableVideosCount scenarioWorld = 5
  /\ _getQualityForState scenarioWorld = QUALITY.LOW.
Proof.
  split; [reflexivity |]. split; [reflexivity |].
  apply (decision_is_first_met_threshold scenarioWorld eq_refl); [reflexivity | reflexivity |].
  intros j (t & Ht & Hle).
  apply defaultAvailableAudiosThreshold_at_least in Ht.
  change (availableAudiosCount scenarioWorld) with 0 in Hle. lia.
Defined.

(** C2. Whatever the counts and the threshold tables, when
    [speakingOrInGrace] is true the decision is the maximum level, [HIGH]. *)
Theorem speaking_decides_high (w : World) :
  _speakingOrInGracePeriodAfterSpeaking w = true ->
  _getQualityForState w = QUALITY.HIGH.
Proof.
  intros Hspeaking. unfold _getQualityForState. rewrite Hspeaking. reflexivity.
Qed.

Lemma speaking_decides_high_scenario :
  _getQualityForState (withSpeakingOrInGrace true scenarioWorld) = QUALITY.HIGH.
Proof.
  apply (speaking_decides_high (withSpeakingOrInGrace true scenarioWorld)).
  reflexivity.
Defined.

(** ** Re-evaluation *)

Lemma withAppliedConstraints_same (w : World) :
  withAppliedConstraints (appliedConstraints w) w = w.
Proof. destruct w. reflexivity. Qed.

(** A re-evaluation changes nothing but the record of the calls on the
    constrainer. *)
Lemma _adjustVideoQualityIfNeeded_frame (w : World) :
  _adjustVideoQualityIfNeeded w
  = withAppliedConstraints (appliedConstraints (_adjustVideoQualityIfNeeded w)) w.
Proof.
  unfold _adjustVideoQualityIfNeeded.
  destruct (negb _ || negb _); [symmetry; apply withAppliedConstraints_same | reflexivity].
Qed.

Lemma _adjustVideoQualityIfNeeded_applied (w : World) :
  appliedConstraints (_adjustVideoQualityIfNeeded w)
  = appliedConstraints w
    ++ (if videoAvailable (localMediaModel w) && videoEnabled (localMediaModel w)
        then [_getQualityForState w] else []).
Proof.
  unfold _adjustVideoQualityIfNeeded.
  destruct (videoAvailable (localMediaModel w)), (videoEnabled (localMediaModel w)); simpl;
    try (symmetry; apply app_nil_r); reflexivity.
Qed.

Lemma adjust_repeated (n : nat) (w : World) :
  videoAvailable (localMediaModel w) = true ->
  videoEnabled (localMediaModel w) = true ->
  Nat.iter n _adjustVideoQualityIfNeeded w
  = withAppliedConstraints
      (appliedConstraints w ++ replicate n (_getQualityForState w)) w.
Proof.
  intros Hav Hen.
  induction n as [|n IH].
  - simpl. rewrite app_nil_r. symmetry. apply withAppliedConstraints_same.
  - cbn [Nat.iter nat_rect]. unfold Nat.iter in IH. rewrite IH.
    unfold _adjustVideoQualityIfNeeded. cbn [localMediaModel withAppliedConstraints].
    rewrite Hav, Hen. cbn [negb orb].
    unfold applyConstraints. cbn [appliedConstraints withAppliedConstraints].
    rewrite replicate_S_end, app_assoc. reflexivity.
Qed.

(** C5. A re-evaluation calls the constraint applier exactly when the local
    video is available and enabled.  While it is unavailable or disabled the
    re-evaluation does nothing at all; while both hold it calls the applier with
    the level of the decision function, and does so at every re-evaluation: [n]
    re-evaluations in a row make [n] calls, whether or not the level changed. *)
Theorem adjust_applies_iff_video_sent (w : World) :
  let w' := _adjustVideoQualityIfNeeded w in
  (videoAvailable (localMediaModel w) = false \/ videoEnabled (localMediaModel w) = false ->
   w' = w)
  /\ (videoAvailable (localMediaModel w) = true ->
      videoEnabled (localMediaModel w) = true ->
      appliedConstraints w' = appliedConstraints w ++ [_getQualityForState w]
      /\ w' = withAppliedConstraints (appliedConstraints w') w
      /\ forall n, appliedConstraints (Nat.iter n _adjustVideoQualityIfNeeded w)
                   = appliedConstraints w ++ replicate n (_getQualityForState w))
  /\ (appliedConstraints w' <> appliedConstraints w <->
      videoAvailable (localMediaModel w) = true /\ videoEnabled (localMediaModel w) = true).
Proof.
  intros w'. split; [| split].
  - subst w'. unfold _adjustVideoQualityIfNeeded.
    intros [H | H]; rewrite H; [reflexivity | rewrite orb_true_r; reflexivity].
  - intros Hav Hen. split; [| split].
    + subst w'. rewrite _adjustVideoQualityIfNeeded_applied, Hav, Hen. reflexivity.
    + apply _adjustVideoQualityIfNeeded_frame.
    + intros n. rewrite adjust_repeated by assumption. reflexivity.
  - subst w'. rewrite _adjustVideoQualityIfNeeded_applied.
    destruct (videoAvailable (localMediaModel w)), (videoEnabled (localMediaModel w));
      cbn [andb].
    + split; [intros _; split; reflexivity |].
      intros _ Heq. apply (f_equal length) in Heq. rewrite length_app in Heq.
      simpl in Heq. lia.
    + rewrite app_nil_r. split; [intros H; contradiction | intros [_ H]; discriminate].
    + rewrite app_nil_r. split; [intros H; contradiction | intros [H _]; discriminate].
    + rewrite app_nil_r. split; [intros H; contradiction | intros [H _]; discriminate].
Qed.

Lemma adjust_applies_iff_video_sent_scenario :
  appliedConstraints (_adjustVideoQualityIfNeeded scenarioWorld)
  = appliedConstraints scenarioWorld ++ [QUALITY.LOW].
Proof.
  destruct (adjust_applies_iff_video_sent scenarioWorld) as (_ & Hsent & _).
  destruct (Hsent eq_refl eq_refl) as (Happlied & _).
  exact Happlied.
Defined.

(** ** The threshold setters *)

Lemma withConsole_same (w : World) : withConsole (console w) w = w.
Proof. destruct w. reflexivity. Qed.

(** The validation loop writes to the console at most; it returns when every
    level of its range has an entry and throws at the first level without
    one. *)
Lemma validateQualities_outcome (remaining : nat) (i : Z) (table : gmap Z Z) (w : World) :
  (exists c,
      validateQualities remaining i table w = Done (withConsole c w)
      /\ forall j, i <= j < i + Z.of_nat remaining -> is_Some (table !! j))
  \/ (exists c j,
         validateQualities remaining i table w
         = Thrown (NoThresholdForQuality j) (withConsole c w)
         /\ i <= j < i + Z.of_nat remaining
         /\ table !! j = None
         /\ forall k, i <= k < j -> is_Some (table !! k)).
Proof.
  revert i w.
  induction remaining as [|n IH]; intros i w.
  - left. exists (console w). rewrite withConsole_same.
    split; [reflexivity | intros j Hj; lia].
  - cbn [validateQualities].
    destruct (table !! i) as [ti|] eqn:Hi.
    + set (w' := if QUALITY.THUMBNAIL <? i then _ else w).
      assert (Hw' : exists c', w' = withConsole c' w).
      { subst w'. destruct (QUALITY.THUMBNAIL <? i).
        - destruct (exceedsPrevious table i) as [[here below]|].
          + eexists. reflexivity.
          + exists (console w). symmetry. apply withConsole_same.
        - exists (console w). symmetry. apply withConsole_same. }
      destruct Hw' as [c' ->].
      destruct (IH (i + 1) (withConsole c' w)) as [(c & Hdone & Hall) | (c & j & Hthrown & Hj & Hnone & Hbefore)].
      * left. exists c. split; [exact Hdone |].
        intros j Hj. destruct (decide (j = i)) as [-> | Hne]; [rewrite Hi; eauto |].
        apply Hall. lia.
      * right. exists c, j. split; [exact Hthrown |]. split; [lia |]. split; [exact Hnone |].
        intros k Hk. destruct (decide (k = i)) as [-> | Hne]; [rewrite Hi; eauto |].
        apply Hbefore. lia.
    + right. exists (console w), i. rewrite withConsole_same.
      split; [reflexivity |]. split; [lia |]. split; [exact Hi |].
      intros k Hk. lia.
Qed.

Lemma _validateThreshold_outcome (table : gmap Z Z) (w : World) :
  (exists c, _validateThreshold table w = Done (withConsole c w) /\ hasEveryQuality table)
  \/ (exists c j,
         _validateThreshold table w = Thrown (NoThresholdForQuality j) (withConsole c w)
         /\ QUALITY.THUMBNAIL <= j <= QUALITY.HIGH
         /\ table !! j = None).
Proof.
  unfold _validateThreshold, hasEveryQuality.
  destruct (validateQualities_outcome
              (Z.to_nat (QUALITY.HIGH + 1 - QUALITY.THUMBNAIL)) QUALITY.THUMBNAIL table w)
    as [(c & Hdone & Hall) | (c & j & Hthrown & Hj & Hnone & _)];
    unfold QUALITY.HIGH, QUALITY.THUMBNAIL in *.
  - left. exists c. split; [exact Hdone |]. intros i Hi. apply Hall. simpl. lia.
  - right. exists c, j. split; [exact Hthrown |]. split; [simpl in Hj; lia | exact Hnone].
Qed.

Lemma hasEveryQuality_missing (table : gmap Z Z) :
  ~ hasEveryQuality table <->
  exists i, QUALITY.THUMBNAIL <= i <= QUALITY.HIGH /\ table !! i = None.
Proof.
  split.
  - intros Hnot.
    destruct (_validateThreshold_outcome table listenedWorld)
      as [(c & _ & Hall) | (c & j & _ & Hj & Hnone)]; [contradiction |].
    exists j. split; assumption.
  - intros (i & Hi & Hnone) Hall.
    destruct (Hall i Hi) as [x Hx]. congruence.
Qed.

(** What a setter does with a table it accepts and with one it rejects. *)
Lemma setAvailableVideosThreshold_outcome (table : gmap Z Z) (w : World) :
  (hasEveryQuality table
   /\ exists c,
       setAvailableVideosThreshold table w
       = Done (_adjustVideoQualityIfNeeded
                 (_trigger "change:availableVideosThreshold" table
                    (withVideosThreshold table (withConsole c w)))))
  \/ (~ hasEveryQuality table
      /\ exists c j,
          setAvailableVideosThreshold table w
          = Thrown (NoThresholdForQuality j) (withConsole c w)
          /\ QUALITY.THUMBNAIL <= j <= QUALITY.HIGH /\ table !! j = None).
Proof.
  unfold setAvailableVideosThreshold.
  destruct (_validateThreshold_outcome table w)
    as [(c & -> & Hall) | (c & j & -> & Hj & Hnone)].
  - left. split; [exact Hall |]. exists c. reflexivity.
  - right. split.
    + apply hasEveryQuality_missing. exists j. split; assumption.
    + exists c, j. split; [reflexivity |]. split; assumption.
Qed.

Lemma setAvailableAudiosThreshold_outcome (table : gmap Z Z) (w : World) :
  (hasEveryQuality table
   /\ exists c,
       setAvailableAudiosThreshold table w
       = Done (_adjustVideoQualityIfNeeded
                 (_trigger "change:availableAudiosThreshold" table
                    (withAudiosThreshold table (withConsole c w)))))
  \/ (~ hasEveryQuality table
      /\ exists c j,
          setAvailableAudiosThreshold table w
          = Thrown (NoThresholdForQuality j) (withConsole c w)
          /\ QUALITY.THUMBNAIL <= j <= QUALITY.HIGH /\ table !! j = None).
Proof.
  unfold setAvailableAudiosThreshold.
  destruct (_validateThreshold_outcome table w)
    as [(c & -> & Hall) | (c & j & -> & Hj & Hnone)].
  - left. split; [exact Hall |]. exists c. reflexivity.
  - right. split.
    + apply hasEveryQuality_missing. exists j. split; assumption.
    + exists c, j. split; [reflexivity |]. split; assumption.
Qed.

(** Projections of the world a re-evaluation or a notification leaves. *)
Lemma _adjustVideoQualityIfNeeded_videos (w : World) :
  _availableVideosThreshold (_adjustVideoQualityIfNeeded w) = _availableVideosThreshold w.
Proof. rewrite _adjustVideoQualityIfNeeded_frame. reflexivity. Qed.

Lemma _adjustVideoQualityIfNeeded_audios (w : World) :
  _availableAudiosThreshold (_adjustVideoQualityIfNeeded w) = _availableAudiosThreshold w.
Proof. rewrite _adjustVideoQualityIfNeeded_frame. reflexivity. Qed.

Lemma _adjustVideoQualityIfNeeded_delivered (w : World) :
  delivered (_adjustVideoQualityIfNeeded w) = delivered w.
Proof. rewrite _adjustVideoQualityIfNeeded_frame. reflexivity. Qed.

Lemma _trigger_frame (event : string) (table : gmap Z Z) (w : World) :
  _trigger event table w = withDelivered (delivered (_trigger event table w)) w.
Proof.
  unfold _trigger. destruct (_handlers w !! event); [reflexivity |].
  destruct w. reflexivity.
Qed.

Lemma _trigger_delivered (event : string) (table : gmap Z Z) (w : World) :
  delivered (_trigger event table w)
  = delivered w ++ map (fun handler => (handler, event, table)) (listeners event w).
Proof.
  unfold _trigger, listeners. destruct (_handlers w !! event); simpl.
  - reflexivity.
  - symmetry. apply app_nil_r.
Qed.

Lemma moderatorThreshold_hasEveryQuality : hasEveryQuality moderatorThreshold.
Proof.
  intros i Hi. unfold QUALITY.THUMBNAIL, QUALITY.HIGH in Hi.
  assert (Hcases : i = 0 \/ i = 1 \/ i = 2 \/ i = 3 \/ i = 4) by lia.
  destruct Hcases as [-> | [-> | [-> | [-> | ->]]]]; eexists; reflexivity.
Qed.

Lemma scenarioVideosThreshold_hasEveryQualityBelowHigh :
  hasEveryQualityBelowHigh scenarioVideosThreshold.
Proof.
  intros i Hi. unfold QUALITY.THUMBNAIL, QUALITY.HIGH in Hi.
  assert (Hcases : i = 0 \/ i = 1 \/ i = 2 \/ i = 3) by lia.
  destruct Hcases as [-> | [-> | [-> | ->]]]; eexists; reflexivity.
Qed.

(** C4, as the code has it.  A threshold setter throws exactly when the table
    lacks an entry for some quality level from [THUMBNAIL] to [HIGH], the
    maximum level included.  When it throws, the previous tables stay in effect
    and nothing but the console has changed; when it returns, the table is in
    effect. *)
Theorem setters_reject_iff_quality_missing (table : gmap Z Z) (w : World) :
  let ov := setAvailableVideosThreshold table w in
  let oa := setAvailableAudiosThreshold table w in
  let missing :=
    exists i, QUALITY.THUMBNAIL <= i <= QUALITY.HIGH /\ table !! i = None in
  (is_Some (thrown ov) <-> missing)
  /\ (is_Some (thrown oa) <-> missing)
  /\ (is_Some (thrown ov) ->
      _availableVideosThreshold (worldOf ov) = _availableVideosThreshold w
      /\ _availableAudiosThreshold (worldOf ov) = _availableAudiosThreshold w
      /\ worldOf ov = withConsole (console (worldOf ov)) w)
  /\ (is_Some (thrown oa) ->
      _availableVideosThreshold (worldOf oa) = _availableVideosThreshold w
      /\ _availableAudiosThreshold (worldOf oa) = _availableAudiosThreshold w
      /\ worldOf oa = withConsole (console (worldOf oa)) w)
  /\ (thrown ov = None -> _availableVideosThreshold (worldOf ov) = table)
  /\ (thrown oa = None -> _availableAudiosThreshold (worldOf oa) = table).
Proof.
  intros ov oa missing.
  assert (Hmissing : missing <-> ~ hasEveryQuality table)
    by (symmetry; apply hasEveryQuality_missing).
  destruct (setAvailableVideosThreshold_outcome table w)
    as [(Hall & c & Hov) | (Hnot & c & j & Hov & Hj & Hnone)];
  destruct (setAvailableAudiosThreshold_outcome table w)
    as [(Hall' & c' & Hoa) | (Hnot' & c' & j' & Hoa & Hj' & Hnone')];
    try contradiction; subst ov oa; rewrite Hov, Hoa; cbn [thrown worldOf].
  - assert (Hno : forall P : Prop, is_Some (@None Error) -> P)
      by (intros P [e He]; discriminate).
    split; [split; [apply Hno | rewrite Hmissing; intros Hnot; contradiction] |].
    split; [split; [apply Hno | rewrite Hmissing; intros Hnot; contradiction] |].
    split; [apply Hno |]. split; [apply Hno |]. split; intros _.
    + rewrite _adjustVideoQualityIfNeeded_videos, _trigger_frame. reflexivity.
    + rewrite _adjustVideoQualityIfNeeded_audios, _trigger_frame. reflexivity.
  - split; [split; [intros _; apply Hmissing; exact Hnot | intros _; eauto] |].
    split; [split; [intros _; apply Hmissing; exact Hnot | intros _; eauto] |].
    split; [intros _; repeat split |]. split; [intros _; repeat split |].
    split; discriminate.
Qed.

(** The table of the scenario, which has no entry for [HIGH], is rejected by the
    setter of the video thresholds and the tables of the throttler stay as
    they were. *)
Lemma setters_reject_iff_quality_missing_scenario :
  is_Some (thrown (setAvailableVideosThreshold scenarioVideosThreshold listenedWorld))
  /\ _availableVideosThreshold
       (worldOf (setAvailableVideosThreshold scenarioVideosThreshold listenedWorld))
     = defaultAvailableVideosThreshold
  /\ _availableAudiosThreshold
       (worldOf (setAvailableVideosThreshold scenarioVideosThreshold listenedWorld))
     = defaultAvailableAudiosThreshold.
Proof.
  destruct (setters_reject_iff_quality_missing scenarioVideosThreshold listenedWorld)
    as (Hthrows & _ & Hkept & _).
  assert (Hthrown :
    is_Some (thrown (setAvailableVideosThreshold scenarioVideosThreshold listenedWorld))).
  { apply Hthrows. exists QUALITY.HIGH. split; [unfold QUALITY.THUMBNAIL, QUALITY.HIGH; lia |].
    reflexivity. }
  split; [exact Hthrown |].
  destruct (Hkept Hthrown) as (Hvideos & Haudios & _).
  split; [rewrite Hvideos | rewrite Haudios]; reflexivity.
Defined.

(** C4 as stated fails: the table of the scenario has an entry for every level
    but the maximum one, and both setters reject it for want of [HIGH]. *)
Lemma setters_reject_table_without_high :
  hasEveryQualityBelowHigh scenarioVideosThreshold
  /\ thrown (setAvailableVideosThreshold scenarioVideosThreshold listenedWorld)
     = Some (NoThresholdForQuality QUALITY.HIGH)
  /\ thrown (setAvailableAudiosThreshold scenarioVideosThreshold listenedWorld)
     = Some (NoThresholdForQuality QUALITY.HIGH).
Proof.
  split; [apply scenarioVideosThreshold_hasEveryQualityBelowHigh |].
  split; vm_compute; reflexivity.
Qed.

(** ** Signaling *)

(** C3, as the code has it.  A [control] message whose action is
    [forceAvailableVideosThreshold] (respectively
    [forceAvailableAudiosThreshold]) goes through the setter: when the table of
    the payload has an entry for every quality level it replaces the
    corresponding table whatever that table was, every listener of the change
    event is notified with the new table, and a re-evaluation follows; when the
    table lacks an entry the setter throws and nothing but the console has
    changed.  A message of another type or with another action is ignored and
    the world is unchanged. *)
Theorem signaling_message_effect (message : Message) (w : World) :
  let o := _handleSignalingMessage message w in
  let table := threshold (payload message) in
  let sending := videoAvailable (localMediaModel w) && videoEnabled (localMediaModel w) in
  (type message = "control" ->
   action (payload message) = "forceAvailableVideosThreshold" ->
   (hasEveryQuality table ->
    thrown o = None
    /\ _availableVideosThreshold (worldOf o) = table
    /\ _availableAudiosThreshold (worldOf o) = _availableAudiosThreshold w
    /\ delivered (worldOf o)
       = delivered w
         ++ map (fun handler => (handler, "change:availableVideosThreshold", table))
              (listeners "change:availableVideosThreshold" w)
    /\ appliedConstraints (worldOf o)
       = appliedConstraints w
         ++ (if sending then [_getQualityForState (worldOf o)] else []))
   /\ (~ hasEveryQuality table ->
       is_Some (thrown o) /\ worldOf o = withConsole (console (worldOf o)) w))
  /\ (type message = "control" ->
      action (payload message) = "forceAvailableAudiosThreshold" ->
      (hasEveryQuality table ->
       thrown o = None
       /\ _availableAudiosThreshold (worldOf o) = table
       /\ _availableVideosThreshold (worldOf o) = _availableVideosThreshold w
       /\ delivered (worldOf o)
          = delivered w
            ++ map (fun handler => (handler, "change:availableAudiosThreshold", table))
                 (listeners "change:availableAudiosThreshold" w)
       /\ appliedConstraints (worldOf o)
          = appliedConstraints w
            ++ (if sending then [_getQualityForState (worldOf o)] else []))
      /\ (~ hasEveryQuality table ->
          is_Some (thrown o) /\ worldOf o = withConsole (console (worldOf o)) w))
  /\ (type message <> "control"
      \/ (action (payload message) <> "forceAvailableVideosThreshold"
          /\ action (payload message) <> "forceAvailableAudiosThreshold") ->
      o = Done w).
Proof.
  intros o table sending. subst o. unfold _handleSignalingMessage.
  split; [| split].
  - intros Htype Haction.
    rewrite (bool_decide_eq_true_2 _ Htype), (bool_decide_eq_true_2 _ Haction).
    cbn [negb]. fold table.
    set (w1 := withConsole _ w).
    destruct (setAvailableVideosThreshold_outcome table w1)
      as [(Hall & c & ->) | (Hnot & c & j & -> & Hj & Hnone)]; cbn [thrown worldOf].
    + split; [| intros Hnot; contradiction].
      intros _. split; [reflexivity |].
      split; [rewrite _adjustVideoQualityIfNeeded_videos, _trigger_frame; reflexivity |].
      split; [rewrite _adjustVideoQualityIfNeeded_audios, _trigger_frame; reflexivity |].
      split.
      * rewrite _adjustVideoQualityIfNeeded_delivered, _trigger_delivered. reflexivity.
      * rewrite _adjustVideoQualityIfNeeded_applied.
        rewrite (_adjustVideoQualityIfNeeded_frame (_trigger _ _ _)).
        rewrite _trigger_frame. reflexivity.
    + split; [intros Hall; contradiction |].
      intros _. split; [eauto | reflexivity].
  - intros Htype Haction.
    assert (Hother : action (payload message) <> "forceAvailableVideosThreshold")
      by (rewrite Haction; discriminate).
    rewrite (bool_decide_eq_true_2 _ Htype), (bool_decide_eq_false_2 _ Hother),
      (bool_decide_eq_true_2 _ Haction).
    cbn [negb]. fold table.
    set (w1 := withConsole _ w).
    destruct (setAvailableAudiosThreshold_outcome table w1)
      as [(Hall & c & ->) | (Hnot & c & j & -> & Hj & Hnone)]; cbn [thrown worldOf].
    + split; [| intros Hnot; contradiction].
      intros _. split; [reflexivity |].
      split; [rewrite _adjustVideoQualityIfNeeded_audios, _trigger_frame; reflexivity |].
      split; [rewrite _adjustVideoQualityIfNeeded_videos, _trigger_frame; reflexivity |].
      split.
      * rewrite _adjustVideoQualityIfNeeded_delivered, _trigger_delivered. reflexivity.
      * rewrite _adjustVideoQualityIfNeeded_applied.
        rewrite (_adjustVideoQualityIfNeeded_frame (_trigger _ _ _)).
        rewrite _trigger_frame. reflexivity.
    + split; [intros Hall; contradiction |].
      intros _. split; [eauto | reflexivity].
  - intros [Htype | [Hvideos Haudios]].
    + rewrite (bool_decide_eq_false_2 _ Htype). reflexivity.
    + rewrite (bool_decide_eq_false_2 _ Hvideos), (bool_decide_eq_false_2 _ Haudios).
      destruct (negb _); reflexivity.
Qed.

(** A moderator's table with every level, received by a throttler that sends
    video: the table is in effect, the listener was told, the constrainer was
    called once more. *)
Lemma signaling_message_effect_moderator :
  _availableVideosThreshold
    (worldOf (_handleSignalingMessage (forceAvailableVideosThreshold moderatorThreshold)
                listenedWorld))
  = moderatorThreshold
  /\ delivered
       (worldOf (_handleSignalingMessage (forceAvailableVideosThreshold moderatorThreshold)
                   listenedWorld))
     = [(0%nat, "change:availableVideosThreshold", moderatorThreshold)]
  /\ appliedConstraints
       (worldOf (_handleSignalingMessage (forceAvailableVideosThreshold moderatorThreshold)
                   listenedWorld))
     = [QUALITY.HIGH; QUALITY.HIGH].
Proof.
  destruct (signaling_message_effect (forceAvailableVideosThreshold moderatorThreshold)
              listenedWorld) as (Hvideos & _ & _).
  destruct (Hvideos eq_refl eq_refl) as (Haccepted & _).
  destruct (Haccepted moderatorThreshold_hasEveryQuality)
    as (_ & Htable & _ & Hdelivered & Happlied).
  split; [exact Htable |]. split; [exact Hdelivered |].
  rewrite Happlied. vm_compute. reflexivity.
Defined.

(** C3 as stated fails: a [control] message with the action
    [forceAvailableVideosThreshold] and a table without entries is received,
    and the video table is not replaced by the table of the payload, no
    listener is notified and no re-evaluation takes place; the setter has
    thrown.  The same happens with the table of the scenario, which has every
    level but [HIGH]. *)
Lemma forced_threshold_without_entries_not_installed :
  type (forceAvailableVideosThreshold ∅) = "control"
  /\ action (payload (forceAvailableVideosThreshold ∅)) = "forceAvailableVideosThreshold"
  /\ thrown (_handleSignalingMessage (forceAvailableVideosThreshold ∅) listenedWorld)
     = Some (NoThresholdForQuality QUALITY.THUMBNAIL)
  /\ _availableVideosThreshold
       (worldOf (_handleSignalingMessage (forceAvailableVideosThreshold ∅) listenedWorld))
     <> threshold (payload (forceAvailableVideosThreshold ∅))
  /\ delivered
       (worldOf (_handleSignalingMessage (forceAvailableVideosThreshold ∅) listenedWorld))
     = delivered listenedWorld
  /\ appliedConstraints
       (worldOf (_handleSignalingMessage (forceAvailableVideosThreshold ∅) listenedWorld))
     = appliedConstraints listenedWorld
  /\ thrown (_handleSignalingMessage (forceAvailableVideosThreshold scenarioVideosThreshold)
               listenedWorld)
     = Some (NoThresholdForQuality QUALITY.HIGH)
  /\ _availableVideosThreshold
       (worldOf (_handleSignalingMessage
                   (forceAvailableVideosThreshold scenarioVideosThreshold) listenedWorld))
     <> scenarioVideosThreshold.
Proof.
  split; [reflexivity |]. split; [reflexivity |]. split; [vm_compute; reflexivity |].
  split; [| split; [vm_compute; reflexivity |]].
  { intros Heq. apply (f_equal (fun table : gmap Z Z => table !! 0)) in Heq.
    vm_compute in Heq. discriminate. }
  split; [vm_compute; reflexivity |]. split; [vm_compute; reflexivity |].
  intros Heq. apply (f_equal (fun table : gmap Z Z => table !! 0)) in Heq.
  vm_compute in Heq. discriminate.
Qed.

(** ** The grace period after speaking *)

Lemma withTimeouts_same (w : World) :
  withTimeouts (pendingTimeouts w) (nextTimeoutHandle w) w = w.
Proof. destruct w. reflexivity. Qed.

(** Clearing a timeout changes the pending timeouts only. *)
Lemma clearTimeout_frame (handle : option Z) (w : World) :
  clearTimeout handle w
  = withTimeouts (pendingTimeouts (clearTimeout handle w)) (nextTimeoutHandle w) w.
Proof.
  destruct handle as [h|]; [reflexivity |].
  symmetry. apply withTimeouts_same.
Qed.

(** It takes the timeout of the handle out and leaves the others pending. *)
Lemma clearTimeout_pending (handle : option Z) (w : World) (t : Z * Z) :
  t ∈ pendingTimeouts (clearTimeout handle w)
  <-> t ∈ pendingTimeouts w /\ Some (fst t) <> handle.
Proof.
  destruct handle as [h|]; cbn [clearTimeout].
  - cbn [pendingTimeouts withTimeouts]. rewrite list_elem_of_filter.
    split.
    + intros [Hne Hin]. split; [exact Hin | congruence].
    + intros [Hin Hne]. split; [congruence | exact Hin].
  - split; [intros Hin; split; [exact Hin | discriminate] | intros [Hin _]; exact Hin].
Qed.

(** C10. When the handler of the [audioEnabled] change runs while the audio is
    enabled, it returns at once: the world is left as it was, so
    [speakingOrInGrace] keeps its value whatever [speaking] is, no timeout is
    cleared or created, and the constraint applier is not called. *)
Theorem audio_enabled_change_ignored_while_enabled (w : World) :
  audioEnabled (localMediaModel w) = true ->
  let w' := _handleLocalAudioEnabledChange w in
  w' = w
  /\ _speakingOrInGracePeriodAfterSpeaking w' = _speakingOrInGracePeriodAfterSpeaking w
  /\ _gracePeriodAfterSpeakingTimeout w' = _gracePeriodAfterSpeakingTimeout w
  /\ pendingTimeouts w' = pendingTimeouts w
  /\ nextTimeoutHandle w' = nextTimeoutHandle w
  /\ appliedConstraints w' = appliedConstraints w.
Proof.
  intros Henabled w'. subst w'. unfold _handleLocalAudioEnabledChange.
  rewrite Henabled. repeat split.
Qed.

(** While the participant speaks with the microphone on and the throttler is
    out of its grace period, the handler leaves it out of it. *)
Lemma audio_enabled_change_ignored_while_speaking :
  speaking (localMediaModel unmutedWhileSpeakingWorld) = true
  /\ _handleLocalAudioEnabledChange unmutedWhileSpeakingWorld = unmutedWhileSpeakingWorld
  /\ _speakingOrInGracePeriodAfterSpeaking
       (_handleLocalAudioEnabledChange unmutedWhileSpeakingWorld) = false.
Proof.
  destruct (audio_enabled_change_ignored_while_enabled unmutedWhileSpeakingWorld eq_refl)
    as (Hsame & Hgrace & _).
  split; [reflexivity |]. split; [exact Hsame |].
  rewrite Hgrace. reflexivity.
Defined.

(** In a run: the participant speaks, mutes and unmutes.  Muting ends the grace
    period; unmuting leaves the throttler out of it although the participant
    is still speaking, and the next change of [speaking] to true brings it
    back. *)
Lemma unmuting_does_not_resynchronize :
  graceState <$>
    run [LocalMediaChanges Speaking true; LocalMediaChanges AudioEnabled false] freshWorld
  = Some (0, false, None, [])
  /\ graceState <$>
       run [LocalMediaChanges Speaking true; LocalMediaChanges AudioEnabled false;
            LocalMediaChanges AudioEnabled true] freshWorld
     = Some (0, false, None, [])
  /\ speaking <$> (localMediaModel <$>
       run [LocalMediaChanges Speaking true; LocalMediaChanges AudioEnabled false;
            LocalMediaChanges AudioEnabled true] freshWorld)
     = Some true
  /\ graceState <$>
       run [LocalMediaChanges Speaking true; LocalMediaChanges AudioEnabled false;
            LocalMediaChanges AudioEnabled true; LocalMediaChanges Speaking false;
            LocalMediaChanges Speaking true] freshWorld
     = Some (0, true, None, []).
Proof.
  repeat split; vm_compute; reflexivity.
Qed.

(** The handler of the [audioEnabled] change at work.  When it runs while the
    audio is disabled, then whatever the grace state and whatever [speaking] is:
    [speakingOrInGrace] is false afterwards, the throttler holds no timeout
    handle, the timeout it held the handle of is no longer pending (the other
    pending timeouts are as before, so when it was the only one none is pending
    any more), and a re-evaluation has taken place: the constraint applier was
    called, with the level decided in the new state, when the local video is
    available and enabled. *)
Lemma audio_disabled_ends_grace (w : World) :
  audioEnabled (localMediaModel w) = false ->
  let w' := _handleLocalAudioEnabledChange w in
  _speakingOrInGracePeriodAfterSpeaking w' = false
  /\ _gracePeriodAfterSpeakingTimeout w' = None
  /\ (forall t, t ∈ pendingTimeouts w'
                <-> t ∈ pendingTimeouts w
                    /\ Some (fst t) <> _gracePeriodAfterSpeakingTimeout w)
  /\ (onlyTrackedTimeoutPending w -> pendingTimeouts w' = [])
  /\ appliedConstraints w'
     = appliedConstraints w
       ++ (if videoAvailable (localMediaModel w) && videoEnabled (localMediaModel w)
           then [_getQualityForState w'] else []).
Proof.
  intros Hdisabled w'. subst w'. unfold _handleLocalAudioEnabledChange.
  rewrite Hdisabled.
  set (w2 := withSpeakingOrInGrace false _).
  assert (Hpending : forall t, t ∈ pendingTimeouts (_adjustVideoQualityIfNeeded w2)
                               <-> t ∈ pendingTimeouts w
                                   /\ Some (fst t) <> _gracePeriodAfterSpeakingTimeout w).
  { intros t. rewrite _adjustVideoQualityIfNeeded_frame.
    subst w2. cbn [pendingTimeouts withAppliedConstraints withSpeakingOrInGrace withGraceTimeout].
    apply clearTimeout_pending. }
  split; [rewrite _adjustVideoQualityIfNeeded_frame; reflexivity |].
  split; [rewrite _adjustVideoQualityIfNeeded_frame; reflexivity |].
  split; [exact Hpending |]. split.
  - intros Htracked. apply elem_of_nil_inv. intros t Ht.
    apply Hpending in Ht. destruct Ht as [Hin Hne].
    apply Hne. symmetry. apply Htracked. exact Hin.
  - rewrite _adjustVideoQualityIfNeeded_applied.
    rewrite (_adjustVideoQualityIfNeeded_frame w2).
    subst w2. rewrite clearTimeout_frame. reflexivity.
Qed.

(** While the throttler listens, with its handler as the one function
    registered for the change, muting the microphone runs that handler on the
    muted model. *)
Lemma audio_disabled_event_runs_handler (w : World) :
  audioEnabled (localMediaModel w) = true ->
  registered TheLocalMediaModel "change:audioEnabled" (subscriptions w)
  = [_handleLocalAudioEnabledChangeBound] ->
  step (LocalMediaChanges AudioEnabled false) w
  = Some (Done (_handleLocalAudioEnabledChange
                  (withLocalMediaModel
                     (setAttribute AudioEnabled false (localMediaModel w)) w))).
Proof.
  intros Henabled Hregistered. cbn [step getAttribute changeEvent].
  rewrite Henabled, bool_decide_eq_false_2 by discriminate.
  unfold emit. cbn [subscriptions withLocalMediaModel].
  rewrite Hregistered. reflexivity.
Qed.

(** Muting in the grace period: the grace period is over and its timeout is
    gone. *)
Lemma audio_disabled_ends_grace_muted_in_grace :
  _speakingOrInGracePeriodAfterSpeaking mutedInGraceWorld = true
  /\ pendingTimeouts mutedInGraceWorld = [(7, 5000)]
  /\ _speakingOrInGracePeriodAfterSpeaking (_handleLocalAudioEnabledChange mutedInGraceWorld)
     = false
  /\ pendingTimeouts (_handleLocalAudioEnabledChange mutedInGraceWorld) = [].
Proof.
  destruct (audio_disabled_ends_grace mutedInGraceWorld eq_refl)
    as (Hgrace & _ & _ & Hnone & _).
  split; [reflexivity |]. split; [reflexivity |]. split; [exact Hgrace |].
  apply Hnone. intros t Ht.
  apply list_elem_of_singleton in Ht. subst t. reflexivity.
Defined.

(** What the handler of the [speaking] change does to the grace state. *)
Lemma speaking_starts_grace (w : World) :
  speaking (localMediaModel w) = true ->
  let w' := _handleLocalSpeakingChange w in
  _speakingOrInGracePeriodAfterSpeaking w' = true
  /\ _gracePeriodAfterSpeakingTimeout w' = None
  /\ forall t, t ∈ pendingTimeouts w'
               <-> t ∈ pendingTimeouts w
                   /\ Some (fst t) <> _gracePeriodAfterSpeakingTimeout w.
Proof.
  intros Hspeaking w'. subst w'. unfold _handleLocalSpeakingChange. rewrite Hspeaking.
  rewrite _adjustVideoQualityIfNeeded_frame.
  split; [reflexivity |]. split; [reflexivity |].
  intros t. apply clearTimeout_pending.
Qed.

(** When the participant is not speaking the handler creates a timeout of 5000
    milliseconds and keeps its handle; the timeouts that were pending stay
    pending, the one of the handle it held included. *)
Lemma speaking_stop_adds_timeout (w : World) :
  speaking (localMediaModel w) = false ->
  let w' := _handleLocalSpeakingChange w in
  _speakingOrInGracePeriodAfterSpeaking w' = _speakingOrInGracePeriodAfterSpeaking w
  /\ _gracePeriodAfterSpeakingTimeout w' = Some (nextTimeoutHandle w)
  /\ pendingTimeouts w' = pendingTimeouts w ++ [(nextTimeoutHandle w, now w + 5000)]
  /\ appliedConstraints w' = appliedConstraints w.
Proof.
  intros Hquiet w'. subst w'. unfold _handleLocalSpeakingChange. rewrite Hquiet.
  repeat split.
Qed.

Lemma grace_period_elapsed (w : World) :
  _speakingOrInGracePeriodAfterSpeaking (gracePeriodAfterSpeakingElapsed w) = false.
Proof.
  unfold gracePeriodAfterSpeakingElapsed.
  rewrite _adjustVideoQualityIfNeeded_frame. reflexivity.
Qed.

(** The grace period when the throttler holds the handle of every pending
    timeout, as within one phase of listening: when the participant starts to
    speak the throttler enters the grace period and no timeout is pending; when
    the participant stops, one timeout is pending, due 5000 milliseconds later,
    and it cannot fire before; when it fires the grace period is over. *)
Lemma grace_period_with_tracked_timeout (w : World) (pause : Z) :
  onlyTrackedTimeoutPending w ->
  let w1 :=
    _handleLocalSpeakingChange
      (withLocalMediaModel (setAttribute Speaking true (localMediaModel w)) w) in
  let w2 :=
    _handleLocalSpeakingChange
      (withLocalMediaModel (setAttribute Speaking false (localMediaModel w1)) w1) in
  let later := withNow (now w2 + pause) w2 in
  (_speakingOrInGracePeriodAfterSpeaking w1 = true /\ pendingTimeouts w1 = [])
  /\ (_speakingOrInGracePeriodAfterSpeaking w2 = true
      /\ _gracePeriodAfterSpeakingTimeout w2 = Some (nextTimeoutHandle w)
      /\ pendingTimeouts w2 = [(nextTimeoutHandle w, now w + 5000)])
  /\ (pause < 5000 -> step (TimeoutFires (nextTimeoutHandle w)) later = None)
  /\ (5000 <= pause ->
      exists w3,
        step (TimeoutFires (nextTimeoutHandle w)) later = Some (Done w3)
        /\ _speakingOrInGracePeriodAfterSpeaking w3 = false
        /\ pendingTimeouts w3 = []).
Proof.
  intros Htracked w1 w2 later.
  set (speakingNow := withLocalMediaModel (setAttribute Speaking true (localMediaModel w)) w)
    in w1.
  destruct (speaking_starts_grace speakingNow eq_refl) as (Hgrace1 & Hhandle1 & Hpending1).
  fold w1 in Hgrace1, Hhandle1, Hpending1.
  assert (Hnone1 : pendingTimeouts w1 = []).
  { apply elem_of_nil_inv. intros t Ht. apply Hpending1 in Ht.
    destruct Ht as [Hin Hne]. apply Hne. symmetry. apply Htracked. exact Hin. }
  assert (Hframe1 : nextTimeoutHandle w1 = nextTimeoutHandle w /\ now w1 = now w).
  { subst w1. unfold _handleLocalSpeakingChange.
    change (speaking (localMediaModel speakingNow)) with true. cbn match.
    rewrite _adjustVideoQualityIfNeeded_frame, clearTimeout_frame. split; reflexivity. }
  destruct Hframe1 as [Hnext1 Hnow1].
  set (quietNow := withLocalMediaModel (setAttribute Speaking false (localMediaModel w1)) w1)
    in w2.
  destruct (speaking_stop_adds_timeout quietNow eq_refl)
    as (Hgrace2 & Hhandle2 & Hpending2 & _).
  fold w2 in Hgrace2, Hhandle2, Hpending2.
  change (_speakingOrInGracePeriodAfterSpeaking quietNow)
    with (_speakingOrInGracePeriodAfterSpeaking w1) in Hgrace2.
  change (nextTimeoutHandle quietNow) with (nextTimeoutHandle w1) in Hhandle2, Hpending2.
  change (pendingTimeouts quietNow) with (pendingTimeouts w1) in Hpending2.
  change (now quietNow) with (now w1) in Hpending2.
  rewrite Hnone1, Hnext1, Hnow1 in Hpending2. rewrite Hnext1 in Hhandle2.
  rewrite Hgrace1 in Hgrace2. cbn [app] in Hpending2.
  assert (Hnow2 : now w2 = now w).
  { subst w2. unfold _handleLocalSpeakingChange.
    change (speaking (localMediaModel quietNow)) with false. cbn match.
    cbn [setTimeout now withGraceTimeout withTimeouts]. exact Hnow1. }
  split; [split; [exact Hgrace1 | exact Hnone1] |].
  split; [split; [exact Hgrace2 | split; [exact Hhandle2 | exact Hpending2]] |].
  assert (Hfind : List.find (fun t : Z * Z => bool_decide (fst t = nextTimeoutHandle w))
                    (pendingTimeouts later)
                  = Some (nextTimeoutHandle w, now w + 5000)).
  { subst later. cbn [pendingTimeouts withNow]. rewrite Hpending2. cbn [List.find fst].
    rewrite bool_decide_eq_true_2 by reflexivity. reflexivity. }
  assert (Hlater : now later = now w + pause).
  { subst later. cbn [now withNow]. rewrite Hnow2. reflexivity. }
  split.
  - intros Hshort. cbn [step]. rewrite Hfind, Hlater.
    destruct (now w + 5000 <=? now w + pause) eqn:Hdue; [| reflexivity].
    apply Z.leb_le in Hdue. lia.
  - intros Hlong. cbn [step]. rewrite Hfind, Hlater.
    destruct (now w + 5000 <=? now w + pause) eqn:Hdue;
      [| apply Z.leb_gt in Hdue; lia].
    eexists. split; [reflexivity |]. split; [apply grace_period_elapsed |].
    unfold gracePeriodAfterSpeakingElapsed. rewrite _adjustVideoQualityIfNeeded_frame.
    cbn [pendingTimeouts withAppliedConstraints withSpeakingOrInGrace withTimeouts].
    subst later. cbn [pendingTimeouts withNow]. rewrite Hpending2.
    rewrite filter_cons_False by (cbn [fst]; intros Hne; apply Hne; reflexivity).
    reflexivity.
Qed.

Lemma run_reachable (events : list Event) (w w' : World) :
  reachable w -> run events w = Some w' -> reachable w'.
Proof.
  revert w. induction events as [|ev events IH]; intros w Hw Hrun; simpl in Hrun.
  - inversion Hrun. subst. exact Hw.
  - destruct (step ev w) as [o|] eqn:Hstep; [| discriminate].
    apply (IH (worldOf o)); [| exact Hrun].
    apply (reachable_step ev w o); assumption.
Qed.

(** C8 on the code.  The throttler is created while nobody speaks, which
    creates a first timeout; the local video then becomes unavailable and
    available again, and on starting to listen again the throttler creates a
    second timeout without clearing the first: both are pending in a reachable
    world, and the throttler holds the handle of the second only. *)
Theorem two_timeouts_pending_after_reentry :
  graceState freshWorld = (0, false, Some 1, [(1, 5000)])
  /\ graceState <$> run reenterObserving freshWorld
     = Some (2000, false, Some 2, [(1, 5000); (2, 7000)])
  /\ exists w, reachable w /\ length (pendingTimeouts w) = 2%nat.
Proof.
  split; [vm_compute; reflexivity |]. split; [vm_compute; reflexivity |].
  destruct (run reenterObserving freshWorld) as [w|] eqn:Hrun; [| vm_compute in Hrun; discriminate].
  exists w. split.
  - apply (run_reachable reenterObserving freshWorld); [apply reachable_new | exact Hrun].
  - assert (Hpending : pendingTimeouts <$> run reenterObserving freshWorld
                       = Some [(1, 5000); (2, 7000)]) by (vm_compute; reflexivity).
    rewrite Hrun in Hpending. inversion Hpending as [Heq]. rewrite Heq. reflexivity.
Qed.

(** C6 on the code.  After the run above the participant speaks for a second.
    When speaking starts the throttler clears the timeout it holds the handle
    of and the first one stays pending; when speaking stops, at 4000, a timeout
    due at 9000 is created and [speakingOrInGrace] is true.  At 5000 the first
    timeout fires and [speakingOrInGrace] becomes false, one second after the
    participant stopped speaking, with the audio enabled all along and the
    timeout of the grace period still pending. *)
Theorem grace_period_cut_short_by_first_timeout :
  graceState <$> run (reenterObserving ++ startSpeaking) freshWorld
  = Some (3000, true, None, [(1, 5000)])
  /\ graceState <$> run (reenterObserving ++ startSpeaking ++ stopSpeaking) freshWorld
     = Some (4000, true, Some 3, [(1, 5000); (3, 9000)])
  /\ graceState <$>
       run (reenterObserving ++ startSpeaking ++ stopSpeaking ++ firstTimeoutFires) freshWorld
     = Some (5000, false, Some 3, [(3, 9000)])
  /\ localMediaModel <$>
       run (reenterObserving ++ startSpeaking ++ stopSpeaking ++ firstTimeoutFires) freshWorld
     = Some sendingQuietly.
Proof.
  repeat split; vm_compute; reflexivity.
Qed.

(** C7 on the code.  The participant speaks and stops, which creates the
    timeout of the grace period (handle 2, due 7000); the local video becomes
    unavailable and available again, and on starting to listen again the
    throttler creates another timeout (handle 3) and keeps that handle only.
    The microphone is then muted: [speakingOrInGrace] is forced to false and
    the timeout of handle 3 is cleared, but the timeout of handle 2, a timeout
    of the grace period, is not cancelled and stays pending.  It fires at 7000,
    after the participant has unmuted and started to speak again, and ends the
    grace period while the participant is speaking. *)
Theorem muting_leaves_first_grace_timeout_pending :
  graceState <$> run speakThenReenter freshWorld
  = Some (3000, true, Some 3, [(2, 7000); (3, 8000)])
  /\ graceState <$> run (speakThenReenter ++ mute) freshWorld
     = Some (3000, false, None, [(2, 7000)])
  /\ graceState <$>
       run (speakThenReenter ++ mute ++ speakAgainUntilSecondTimeout) freshWorld
     = Some (7000, false, None, [])
  /\ speaking <$> (localMediaModel <$>
       run (speakThenReenter ++ mute ++ speakAgainUntilSecondTimeout) freshWorld)
     = Some true.
Proof.
  repeat split; vm_compute; reflexivity.
Qed.

(** ** Subscriptions *)

Lemma removeFirst_head {A} `{EqDecision A} (x : A) (l : list A) :
  removeFirst x (x :: l) = l.
Proof. simpl. destruct (decide (x = x)); [reflexivity | contradiction]. Qed.

Lemma removeFirst_skip {A} `{EqDecision A} (x y : A) (l : list A) :
  x <> y -> removeFirst x (y :: l) = y :: removeFirst x l.
Proof. intros Hne. simpl. destruct (decide (x = y)); [contradiction | reflexivity]. Qed.

Lemma withSubscriptions_same (w : World) : withSubscriptions (subscriptions w) w = w.
Proof. destruct w. reflexivity. Qed.

(** The subscription of a participant model. *)
Lemma subscribe_each_participant (models : list CallParticipantModel) (w : World) :
  fold_left
    (fun w callParticipantModel =>
       emitterOn (TheCallParticipantModel (peerId callParticipantModel))
         "change:videoAvailable" _adjustVideoQualityIfNeededBound w)
    models w
  = withSubscriptions
      (subscriptions w
       ++ map (fun m => (TheCallParticipantModel (peerId m), "change:videoAvailable",
                         _adjustVideoQualityIfNeededBound)) models) w.
Proof.
  revert w. induction models as [|m models IH]; intros w; simpl.
  - rewrite app_nil_r. symmetry. apply withSubscriptions_same.
  - rewrite IH. unfold emitterOn. cbn [subscriptions withSubscriptions].
    rewrite <- app_assoc. reflexivity.
Qed.

Lemma unsubscribe_each_participant (models : list CallParticipantModel) (w : World) :
  fold_left
    (fun w callParticipantModel =>
       emitterOff (TheCallParticipantModel (peerId callParticipantModel))
         "change:videoAvailable" _adjustVideoQualityIfNeededBound w)
    models w
  = withSubscriptions
      (fold_left
         (fun subs m => removeFirst (TheCallParticipantModel (peerId m),
                                     "change:videoAvailable",
                                     _adjustVideoQualityIfNeededBound) subs)
         models (subscriptions w)) w.
Proof.
  revert w. induction models as [|m models IH]; intros w; simpl.
  - symmetry. apply withSubscriptions_same.
  - rewrite IH. reflexivity.
Qed.

(** Unsubscribing every participant takes out what subscribing every
    participant put in, and leaves the subscription to the signaling alone. *)
Lemma unsubscribe_participants_after_signaling (models : list CallParticipantModel) :
  fold_left
    (fun subs m => removeFirst (TheCallParticipantModel (peerId m), "change:videoAvailable",
                                _adjustVideoQualityIfNeededBound) subs)
    models
    (signalingSubscription
     :: map (fun m => (TheCallParticipantModel (peerId m), "change:videoAvailable",
                       _adjustVideoQualityIfNeededBound)) models)
  = [signalingSubscription].
Proof.
  induction models as [|m models IH]; cbn [fold_left map]; [reflexivity |].
  rewrite removeFirst_skip by discriminate.
  rewrite removeFirst_head. exact IH.
Qed.

Lemma unsubscribe_participants_signaling_only (models : list CallParticipantModel) :
  fold_left
    (fun subs m => removeFirst (TheCallParticipantModel (peerId m), "change:videoAvailable",
                                _adjustVideoQualityIfNeededBound) subs)
    models [signalingSubscription]
  = [signalingSubscription].
Proof.
  induction models as [|m models IH]; cbn [fold_left]; [reflexivity |].
  rewrite removeFirst_skip by discriminate. exact IH.
Qed.

(** The handlers of the grace period and the re-evaluation leave the
    subscriptions and the participants alone. *)
Lemma _handleLocalSpeakingChange_subscriptions (w : World) :
  subscriptions (_handleLocalSpeakingChange w) = subscriptions w
  /\ callParticipantModels (_handleLocalSpeakingChange w) = callParticipantModels w
  /\ localMediaModel (_handleLocalSpeakingChange w) = localMediaModel w.
Proof.
  unfold _handleLocalSpeakingChange. destruct (speaking (localMediaModel w)).
  - rewrite _adjustVideoQualityIfNeeded_frame, clearTimeout_frame. repeat split.
  - repeat split.
Qed.

Lemma _handleLocalAudioEnabledChange_subscriptions (w : World) :
  subscriptions (_handleLocalAudioEnabledChange w) = subscriptions w
  /\ callParticipantModels (_handleLocalAudioEnabledChange w) = callParticipantModels w
  /\ localMediaModel (_handleLocalAudioEnabledChange w) = localMediaModel w.
Proof.
  unfold _handleLocalAudioEnabledChange. destruct (audioEnabled (localMediaModel w)).
  - repeat split.
  - rewrite _adjustVideoQualityIfNeeded_frame, clearTimeout_frame. repeat split.
Qed.

Lemma _startListeningToChanges_subscriptions (w : World) :
  subscriptions (_startListeningToChanges w)
  = subscriptions w
    ++ [(TheLocalMediaModel, "change:videoEnabled", _adjustVideoQualityIfNeededBound);
        (TheLocalMediaModel, "change:audioEnabled", _handleLocalAudioEnabledChangeBound);
        (TheLocalMediaModel, "change:speaking", _handleLocalSpeakingChangeBound);
        (TheCallParticipantCollection, "add", _handleAddParticipantBound);
        (TheCallParticipantCollection, "remove", _handleRemoveParticipantBound)]
    ++ map (fun m => (TheCallParticipantModel (peerId m), "change:videoAvailable",
                      _adjustVideoQualityIfNeededBound)) (callParticipantModels w)
  /\ callParticipantModels (_startListeningToChanges w) = callParticipantModels w.
Proof.
  unfold _startListeningToChanges.
  rewrite _adjustVideoQualityIfNeeded_frame.
  cbn [subscriptions callParticipantModels withAppliedConstraints].
  match goal with
  | |- context [_handleLocalAudioEnabledChange ?x] =>
      destruct (_handleLocalAudioEnabledChange_subscriptions x) as (-> & -> & _)
  end.
  match goal with
  | |- context [_handleLocalSpeakingChange ?x] =>
      destruct (_handleLocalSpeakingChange_subscriptions x) as (-> & -> & _)
  end.
  rewrite subscribe_each_participant.
  cbn [subscriptions callParticipantModels withSubscriptions emitterOn].
  rewrite <- !app_assoc. split; reflexivity.
Qed.

Lemma _stopListeningToChanges_subscriptions (w : World) :
  subscriptions (_stopListeningToChanges w)
  = fold_left
      (fun subs m => removeFirst (TheCallParticipantModel (peerId m), "change:videoAvailable",
                                  _adjustVideoQualityIfNeededBound) subs)
      (callParticipantModels w)
      (removeFirst
         (TheCallParticipantCollection, "remove", _handleRemoveParticipantBound)
         (removeFirst
            (TheCallParticipantCollection, "add", _handleAddParticipantBound)
            (removeFirst
               (TheLocalMediaModel, "change:speaking", _handleLocalSpeakingChangeBound)
               (removeFirst
                  (TheLocalMediaModel, "change:audioEnabled",
                   _handleLocalAudioEnabledChangeBound)
                  (removeFirst
                     (TheLocalMediaModel, "change:videoEnabled",
                      _adjustVideoQualityIfNeededBound)
                     (subscriptions w))))))
  /\ callParticipantModels (_stopListeningToChanges w) = callParticipantModels w.
Proof.
  unfold _stopListeningToChanges. rewrite unsubscribe_each_participant.
  split; reflexivity.
Qed.

(** After [destroy], a throttler that held the subscription to the signaling
    and, at most, those of the constructor and of [_startListeningToChanges]
    holds the subscription to the signaling still, and only that one. *)
Lemma destroy_subscriptions (w : World) :
  subscriptions w = [signalingSubscription]
  \/ subscriptions w
     = [signalingSubscription;
        (TheLocalMediaModel, "change:videoAvailable", _handleLocalVideoAvailableChangeBound)]
  \/ subscriptions w
     = [signalingSubscription;
        (TheLocalMediaModel, "change:videoAvailable", _handleLocalVideoAvailableChangeBound);
        (TheLocalMediaModel, "change:videoEnabled", _adjustVideoQualityIfNeededBound);
        (TheLocalMediaModel, "change:audioEnabled", _handleLocalAudioEnabledChangeBound);
        (TheLocalMediaModel, "change:speaking", _handleLocalSpeakingChangeBound);
        (TheCallParticipantCollection, "add", _handleAddParticipantBound);
        (TheCallParticipantCollection, "remove", _handleRemoveParticipantBound)]
       ++ map (fun m => (TheCallParticipantModel (peerId m), "change:videoAvailable",
                         _adjustVideoQualityIfNeededBound)) (callParticipantModels w) ->
  subscriptions (destroy w) = [signalingSubscription]
  /\ callParticipantModels (destroy w) = callParticipantModels w.
Proof.
  intros Hsubs. unfold destroy.
  destruct (_stopListeningToChanges_subscriptions
              (emitterOff TheLocalMediaModel "change:videoAvailable"
                 _handleLocalVideoAvailableChangeBound w)) as (-> & ->).
  unfold emitterOff. cbn [subscriptions callParticipantModels withSubscriptions].
  split; [| reflexivity].
  unfold signalingSubscription in *.
  destruct Hsubs as [-> | [-> | ->]].
  - repeat (rewrite removeFirst_skip by discriminate). cbn [removeFirst].
    apply unsubscribe_participants_signaling_only.
  - rewrite removeFirst_skip by discriminate. rewrite removeFirst_head.
    repeat (rewrite removeFirst_skip by discriminate). cbn [removeFirst].
    apply unsubscribe_participants_signaling_only.
  - cbn [app].
    do 6 (rewrite removeFirst_skip by discriminate; rewrite removeFirst_head).
    apply unsubscribe_participants_after_signaling.
Qed.

Lemma SentVideoQualityThrottler_subscriptions (media : LocalMediaModel)
    (models : list CallParticipantModel) (time : Z) :
  let w := SentVideoQualityThrottler media models time in
  callParticipantModels w = models
  /\ (subscriptions w
      = [signalingSubscription;
         (TheLocalMediaModel, "change:videoAvailable", _handleLocalVideoAvailableChangeBound)]
      \/ subscriptions w
         = [signalingSubscription;
            (TheLocalMediaModel, "change:videoAvailable",
             _handleLocalVideoAvailableChangeBound);
            (TheLocalMediaModel, "change:videoEnabled", _adjustVideoQualityIfNeededBound);
            (TheLocalMediaModel, "change:audioEnabled", _handleLocalAudioEnabledChangeBound);
            (TheLocalMediaModel, "change:speaking", _handleLocalSpeakingChangeBound);
            (TheCallParticipantCollection, "add", _handleAddParticipantBound);
            (TheCallParticipantCollection, "remove", _handleRemoveParticipantBound)]
           ++ map (fun m => (TheCallParticipantModel (peerId m), "change:videoAvailable",
                             _adjustVideoQualityIfNeededBound)) models).
Proof.
  intros w. subst w. unfold SentVideoQualityThrottler.
  destruct (videoAvailable media).
  - match goal with
    | |- context [_startListeningToChanges ?x] =>
        destruct (_startListeningToChanges_subscriptions x) as (-> & ->)
    end.
    split; [reflexivity |]. right. reflexivity.
  - split; [reflexivity |]. left. reflexivity.
Qed.

(** C9 on the code.  Whatever the local media and the participants when the
    throttler is created, after one call of [destroy] or more the throttler
    still holds a subscription: the one to the [message] event of the signaling
    object, made by the constructor and never undone.  (The subscriptions to
    the local media model, to the collection and to the participant models are
    gone, and calling [destroy] again changes nothing.) *)
Theorem destroy_keeps_signaling_subscription (media : LocalMediaModel)
    (models : list CallParticipantModel) (time : Z) (calls : nat) :
  let w := Nat.iter (S calls) destroy (SentVideoQualityThrottler media models time) in
  subscriptions w = [(TheSignaling, "message", _handleSignalingMessageBound)]
  /\ ~ holdsNoSubscription w.
Proof.
  intros w.
  assert (Hsubs : subscriptions w = [signalingSubscription]).
  { subst w. induction calls as [|n IH].
    - cbn [Nat.iter nat_rect].
      destruct (SentVideoQualityThrottler_subscriptions media models time) as (_ & Hsubs).
      apply destroy_subscriptions. right.
      destruct Hsubs as [Hsubs | Hsubs].
      + left. exact Hsubs.
      + right. rewrite Hsubs.
        destruct (SentVideoQualityThrottler_subscriptions media models time) as (-> & _).
        reflexivity.
    - change (Nat.iter (S (S n)) destroy (SentVideoQualityThrottler media models time))
        with (destroy (Nat.iter (S n) destroy (SentVideoQualityThrottler media models time))).
      apply destroy_subscriptions. left. exact IH. }
  split; [exact Hsubs |].
  unfold holdsNoSubscription. rewrite Hsubs. discriminate.
Qed.

(** A message of a moderator received after [destroy] still reaches the
    throttler, which installs the table and calls the constraint applier. *)
Lemma destroyed_throttler_obeys_moderator :
  _availableVideosThreshold <$>
    run [CallDestroy; MessageReceived (forceAvailableVideosThreshold moderatorThreshold)]
      freshWorld
  = Some moderatorThreshold
  /\ appliedConstraints <$>
       run [CallDestroy; MessageReceived (forceAvailableVideosThreshold moderatorThreshold)]
         freshWorld
     = Some [QUALITY.HIGH; QUALITY.HIGH].
Proof.
  split; vm_compute; reflexivity.
Qed.

(** * Further properties *)

(** ** The decision function: counts and tables *)

Lemma reaches_monotone (count count' : Z) (table : gmap Z Z) (i : Z) :
  count <= count' -> reaches count table i = true -> reaches count' table i = true.
Proof.
  intros Hle. rewrite !reaches_true.
  intros (t & Ht & Hreached). exists t. split; [exact Ht | lia].
Qed.

Lemma _getQualityForState_range (w : World) :
  QUALITY.THUMBNAIL <= _getQualityForState w <= QUALITY.HIGH.
Proof.
  unfold _getQualityForState.
  destruct (_speakingOrInGracePeriodAfterSpeaking w);
    [unfold QUALITY.THUMBNAIL, QUALITY.HIGH; lia |].
  match goal with
  | |- _ <= scanQualities ?n ?i ?vc ?ac ?vt ?aut <= _ =>
      destruct (scanQualities_first n i vc ac vt aut) as [(Hq & _) | (Hq & _)]
  end; unfold QUALITY.THUMBNAIL, QUALITY.HIGH in *; simpl in *; lia.
Qed.

(** More available videos and audios never raise the decision: with the same
    tables, a throttler out of its grace period that counts at least as many
    available videos and audios as another decides a level that is at most the
    level the other decides. *)
Theorem decision_antitone_in_counts (w w' : World) :
  _availableVideosThreshold w' = _availableVideosThreshold w ->
  _availableAudiosThreshold w' = _availableAudiosThreshold w ->
  _speakingOrInGracePeriodAfterSpeaking w' = false ->
  availableVideosCount w <= availableVideosCount w' ->
  availableAudiosCount w <= availableAudiosCount w' ->
  _getQualityForState w' <= _getQualityForState w.
Proof.
  intros Hvt Haut Hquiet' Hvc Hac.
  pose proof (_getQualityForState_range w') as Hrange'.
  destruct (_speakingOrInGracePeriodAfterSpeaking w) eqn:Hgrace.
  { unfold _getQualityForState at 2. rewrite Hgrace. lia. }
  rewrite (_getQualityForState_not_speaking w Hgrace) in *.
  rewrite (_getQualityForState_not_speaking w' Hquiet') in *.
  rewrite Hvt, Haut in *.
  set (vt := _availableVideosThreshold w) in *.
  set (aut := _availableAudiosThreshold w) in *.
  destruct (scanQualities_first 4 QUALITY.THUMBNAIL (availableVideosCount w)
              (availableAudiosCount w) vt aut) as [(Hq & Hmet & _) | (Hq & _)];
    [| lia].
  assert (Hmet' : reaches (availableVideosCount w') vt
                    (scanQualities 4 QUALITY.THUMBNAIL (availableVideosCount w)
                       (availableAudiosCount w) vt aut)
                  || reaches (availableAudiosCount w') aut
                       (scanQualities 4 QUALITY.THUMBNAIL (availableVideosCount w)
                          (availableAudiosCount w) vt aut) = true).
  { apply orb_true_iff. apply orb_true_iff in Hmet.
    destruct Hmet as [H | H]; [left | right]; eapply reaches_monotone; eauto. }
  destruct (scanQualities_first 4 QUALITY.THUMBNAIL (availableVideosCount w')
              (availableAudiosCount w') vt aut) as [(Hq' & _ & Hbefore') | (Hq' & Hnone')].
  - destruct (Z_le_gt_dec
                (scanQualities 4 QUALITY.THUMBNAIL (availableVideosCount w')
                   (availableAudiosCount w') vt aut)
                (scanQualities 4 QUALITY.THUMBNAIL (availableVideosCount w)
                   (availableAudiosCount w) vt aut)) as [Hle | Hgt]; [exact Hle |].
    rewrite Hbefore' in Hmet' by lia. discriminate.
  - rewrite Hnone' in Hmet' by exact Hq. discriminate.
Qed.

(** Six available videos give [MEDIUM] and eight give [LOW] with the tables of
    the constructor. *)
Lemma decision_antitone_in_counts_call :
  _getQualityForState (worldOfCall 8 9) <= _getQualityForState (worldOfCall 6 9)
  /\ _getQualityForState (worldOfCall 6 9) = QUALITY.MEDIUM
  /\ _getQualityForState (worldOfCall 8 9) = QUALITY.LOW.
Proof.
  split; [| split; reflexivity].
  apply (decision_antitone_in_counts (worldOfCall 6 9) (worldOfCall 8 9));
    try reflexivity; vm_compute; discriminate.
Defined.

(** The loop reads the tables at the levels of its range only. *)
Lemma scanQualities_ext (remaining : nat) (i vc ac : Z) (vt vt' aut aut' : gmap Z Z) :
  (forall j, i <= j < i + Z.of_nat remaining -> vt !! j = vt' !! j /\ aut !! j = aut' !! j) ->
  scanQualities remaining i vc ac vt aut = scanQualities remaining i vc ac vt' aut'.
Proof.
  revert i. induction remaining as [|n IH]; intros i Hsame; [reflexivity |].
  cbn [scanQualities]. unfold reaches.
  destruct (Hsame i ltac:(lia)) as [-> ->].
  rewrite (IH (i + 1)); [reflexivity |].
  intros j Hj. apply Hsame. lia.
Qed.

(** The entries of the two tables for [HIGH] are never read by the decision:
    whatever they are set to, and whether they are there at all, the decision
    is the same. *)
Theorem decision_ignores_high_entries (w : World) (x y : Z) :
  _getQualityForState
    (withVideosThreshold (<[QUALITY.HIGH := x]> (_availableVideosThreshold w))
       (withAudiosThreshold (<[QUALITY.HIGH := y]> (_availableAudiosThreshold w)) w))
  = _getQualityForState w
  /\ _getQualityForState
       (withVideosThreshold (delete QUALITY.HIGH (_availableVideosThreshold w))
          (withAudiosThreshold (delete QUALITY.HIGH (_availableAudiosThreshold w)) w))
     = _getQualityForState w.
Proof.
  unfold _getQualityForState.
  cbn [_speakingOrInGracePeriodAfterSpeaking callParticipantModels
       _availableVideosThreshold _availableAudiosThreshold
       withVideosThreshold withAudiosThreshold].
  destruct (_speakingOrInGracePeriodAfterSpeaking w); [split; reflexivity |].
  split; apply scanQualities_ext; intros j Hj;
    unfold QUALITY.HIGH, QUALITY.THUMBNAIL in *; simpl in Hj.
  - rewrite !lookup_insert_ne by lia. split; reflexivity.
  - rewrite !lookup_delete_ne by lia. split; reflexivity.
Qed.

(** A level below [HIGH] whose thresholds are both at least those of the level
    just below it is never decided: whenever one of its thresholds is reached,
    so is one of the level below, which the scan meets first. *)
Theorem level_not_below_previous_never_decided (w : World) (i : Z)
    (videosHere videosBelow audiosHere audiosBelow : Z) :
  QUALITY.THUMBNAIL < i < QUALITY.HIGH ->
  _availableVideosThreshold w !! i = Some videosHere ->
  _availableVideosThreshold w !! (i - 1) = Some videosBelow ->
  _availableAudiosThreshold w !! i = Some audiosHere ->
  _availableAudiosThreshold w !! (i - 1) = Some audiosBelow ->
  videosBelow <= videosHere ->
  audiosBelow <= audiosHere ->
  _getQualityForState w <> i.
Proof.
  intros Hi Hvh Hvb Hah Hab Hv Ha Hq.
  destruct (_speakingOrInGracePeriodAfterSpeaking w) eqn:Hgrace.
  { unfold _getQualityForState in Hq. rewrite Hgrace in Hq. lia. }
  rewrite (_getQualityForState_not_speaking w Hgrace) in Hq.
  destruct (scanQualities_first 4 QUALITY.THUMBNAIL (availableVideosCount w)
              (availableAudiosCount w) (_availableVideosThreshold w)
              (_availableAudiosThreshold w)) as [(_ & Hmet & Hbefore) | (Hhigh & _)];
    [| lia].
  rewrite Hq in Hmet, Hbefore.
  specialize (Hbefore (i - 1) ltac:(lia)).
  apply orb_false_iff in Hbefore. destruct Hbefore as [Hvideo Haudio].
  unfold reaches in Hmet, Hvideo, Haudio.
  rewrite Hvh, Hah in Hmet. rewrite Hvb in Hvideo. rewrite Hab in Haudio.
  apply Z.leb_gt in Hvideo. apply Z.leb_gt in Haudio.
  apply orb_true_iff in Hmet. destruct Hmet as [H | H]; apply Z.leb_le in H; lia.
Qed.

(** With the video thresholds of [LOW] and [VERY_LOW] swapped in the tables of
    the constructor (and the audio thresholds of the two made equal), eight
    available videos give [VERY_LOW] and [LOW] is not decided. *)
Lemma level_not_below_previous_never_decided_swapped :
  _getQualityForState swappedWorld = QUALITY.VERY_LOW
  /\ _getQualityForState swappedWorld <> QUALITY.LOW.
Proof.
  split; [reflexivity |].
  apply (level_not_below_previous_never_decided swappedWorld QUALITY.LOW 10 7 40 40);
    try reflexivity; unfold QUALITY.THUMBNAIL, QUALITY.LOW, QUALITY.HIGH; lia.
Defined.

Lemma reaches_default_videos (count : Z) :
  reaches count defaultAvailableVideosThreshold QUALITY.THUMBNAIL = (15 <=? count)
  /\ reaches count defaultAvailableVideosThreshold (QUALITY.THUMBNAIL + 1) = (10 <=? count)
  /\ reaches count defaultAvailableVideosThreshold (QUALITY.THUMBNAIL + 1 + 1) = (7 <=? count)
  /\ reaches count defaultAvailableVideosThreshold (QUALITY.THUMBNAIL + 1 + 1 + 1)
     = (4 <=? count).
Proof. repeat split. Qed.

Lemma reaches_default_audios (count : Z) :
  reaches count defaultAvailableAudiosThreshold QUALITY.THUMBNAIL = (50 <=? count)
  /\ reaches count defaultAvailableAudiosThreshold (QUALITY.THUMBNAIL + 1) = (40 <=? count)
  /\ reaches count defaultAvailableAudiosThreshold (QUALITY.THUMBNAIL + 1 + 1) = (30 <=? count)
  /\ reaches count defaultAvailableAudiosThreshold (QUALITY.THUMBNAIL + 1 + 1 + 1)
     = (20 <=? count).
Proof. repeat split. Qed.

(** With the tables of the constructor a throttler out of its grace period
    decides [THUMBNAIL] from 15 available videos or 50 available audios,
    [VERY_LOW] from 10 or 40, [LOW] from 7 or 30, [MEDIUM] from 4 or 20 and
    [HIGH] below; the entries 2 and 10 that the tables hold for [HIGH] play no
    part. *)
Theorem decision_with_default_tables (w : World) :
  _availableVideosThreshold w = defaultAvailableVideosThreshold ->
  _availableAudiosThreshold w = defaultAvailableAudiosThreshold ->
  _speakingOrInGracePeriodAfterSpeaking w = false ->
  _getQualityForState w = defaultDecision (availableVideosCount w) (availableAudiosCount w).
Proof.
  intros Hvt Haut Hquiet.
  rewrite (_getQualityForState_not_speaking w Hquiet), Hvt, Haut.
  cbn [scanQualities].
  destruct (reaches_default_videos (availableVideosCount w)) as (-> & -> & -> & ->).
  destruct (reaches_default_audios (availableAudiosCount w)) as (-> & -> & -> & ->).
  reflexivity.
Qed.

Lemma decision_with_default_tables_call :
  _getQualityForState (worldOfCall 3 30) = QUALITY.HIGH
  /\ _getQualityForState (worldOfCall 4 30) = QUALITY.MEDIUM
  /\ _getQualityForState (worldOfCall 15 30) = QUALITY.THUMBNAIL.
Proof.
  split; [| split].
  - rewrite (decision_with_default_tables (worldOfCall 3 30)); reflexivity.
  - rewrite (decision_with_default_tables (worldOfCall 4 30)); reflexivity.
  - rewrite (decision_with_default_tables (worldOfCall 15 30)); reflexivity.
Defined.

(** ** The validation of a table *)

Lemma warned_validation (table : gmap Z Z) (i : Z) (w : World) :
  (match exceedsPrevious table i with
   | Some (here, below) => withConsole (console w ++ [ConsoleWarn i here below]) w
   | None => w
   end) = withConsole (console w ++ warningAt table i) w.
Proof.
  unfold warningAt. destruct (exceedsPrevious table i) as [[here below]|].
  - reflexivity.
  - rewrite app_nil_r. symmetry. apply withConsole_same.
Qed.

Lemma validateQualities_step (remaining : nat) (i x : Z) (table : gmap Z Z) (w : World) :
  table !! i = Some x ->
  validateQualities (S remaining) i table w
  = validateQualities remaining (i + 1) table
      (if QUALITY.THUMBNAIL <? i then withConsole (console w ++ warningAt table i) w else w).
Proof.
  intros Hi. cbn [validateQualities]. rewrite Hi.
  destruct (QUALITY.THUMBNAIL <? i); [| reflexivity].
  rewrite warned_validation. reflexivity.
Qed.

(** A table with every level passes the validation, which writes the warnings
    of the table to the console, in the order of the levels, and does nothing
    else. *)
Lemma _validateThreshold_complete (table : gmap Z Z) (w : World) :
  hasEveryQuality table ->
  _validateThreshold table w = Done (withConsole (console w ++ warningsOf table) w).
Proof.
  intros Hall.
  destruct (Hall 0 ltac:(unfold QUALITY.THUMBNAIL, QUALITY.HIGH; lia)) as [x0 H0].
  destruct (Hall 1 ltac:(unfold QUALITY.THUMBNAIL, QUALITY.HIGH; lia)) as [x1 H1].
  destruct (Hall 2 ltac:(unfold QUALITY.THUMBNAIL, QUALITY.HIGH; lia)) as [x2 H2].
  destruct (Hall 3 ltac:(unfold QUALITY.THUMBNAIL, QUALITY.HIGH; lia)) as [x3 H3].
  destruct (Hall 4 ltac:(unfold QUALITY.THUMBNAIL, QUALITY.HIGH; lia)) as [x4 H4].
  unfold _validateThreshold.
  change (Z.to_nat (QUALITY.HIGH + 1 - QUALITY.THUMBNAIL)) with 5%nat.
  change QUALITY.THUMBNAIL with 0 at 1.
  rewrite (validateQualities_step 4 0 x0 table w H0).
  change (QUALITY.THUMBNAIL <? 0) with false. cbn match. change (0 + 1) with 1.
  rewrite (validateQualities_step 3 1 x1 table _ H1).
  change (QUALITY.THUMBNAIL <? 1) with true. cbn match. change (1 + 1) with 2.
  rewrite (validateQualities_step 2 2 x2 table _ H2).
  change (QUALITY.THUMBNAIL <? 2) with true. cbn match. change (2 + 1) with 3.
  rewrite (validateQualities_step 1 3 x3 table _ H3).
  change (QUALITY.THUMBNAIL <? 3) with true. cbn match. change (3 + 1) with 4.
  rewrite (validateQualities_step 0 4 x4 table _ H4).
  change (QUALITY.THUMBNAIL <? 4) with true. cbn match.
  cbn [validateQualities console withConsole]. unfold warningsOf.
  change QUALITY.VERY_LOW with 1. change QUALITY.LOW with 2.
  change QUALITY.MEDIUM with 3. change QUALITY.HIGH with 4.
  rewrite <- !app_assoc. reflexivity.
Qed.

Lemma warningAt_nil (table : gmap Z Z) (i : Z) :
  warningAt table i = [] <->
  forall here below, table !! i = Some here -> table !! (i - 1) = Some below -> here <= below.
Proof.
  unfold warningAt, exceedsPrevious.
  destruct (table !! i) as [here|]; [| split; [intros _ ? ? H; discriminate | reflexivity]].
  destruct (table !! (i - 1)) as [below|];
    [| split; [intros _ ? ? _ H; discriminate | reflexivity]].
  destruct (below <? here) eqn:Hlt.
  - apply Z.ltb_lt in Hlt. split; [discriminate |].
    intros H. specialize (H here below eq_refl eq_refl). lia.
  - apply Z.ltb_ge in Hlt. split; [| reflexivity].
    intros _ here' below' Hh Hb. inversion Hh. inversion Hb. subst. exact Hlt.
Qed.

Lemma warningsOf_nil (table : gmap Z Z) :
  warningsOf table = [] <-> nonIncreasing table.
Proof.
  unfold warningsOf, nonIncreasing. split.
  - intros Hnil.
    apply app_eq_nil in Hnil. destruct Hnil as [H1 Hnil].
    apply app_eq_nil in Hnil. destruct Hnil as [H2 Hnil].
    apply app_eq_nil in Hnil. destruct Hnil as [H3 H4].
    intros i here below Hi.
    unfold QUALITY.THUMBNAIL, QUALITY.HIGH in Hi.
    assert (Hcases : i = 1 \/ i = 2 \/ i = 3 \/ i = 4) by lia.
    destruct Hcases as [-> | [-> | [-> | ->]]];
      [apply (proj1 (warningAt_nil table 1) H1) | apply (proj1 (warningAt_nil table 2) H2)
       | apply (proj1 (warningAt_nil table 3) H3) | apply (proj1 (warningAt_nil table 4) H4)].
  - intros Hmono.
    assert (Hat : forall i, QUALITY.THUMBNAIL < i <= QUALITY.HIGH -> warningAt table i = []).
    { intros i Hi. apply warningAt_nil. intros here below. apply Hmono. exact Hi. }
    rewrite !Hat by (unfold QUALITY.THUMBNAIL, QUALITY.VERY_LOW, QUALITY.LOW,
                     QUALITY.MEDIUM, QUALITY.HIGH; lia).
    reflexivity.
Qed.

(** A table with every level is accepted by the setter of the video
    thresholds even when its thresholds increase with the quality somewhere:
    the table is in effect, and the console has received one warning for every
    level from [VERY_LOW] to [HIGH] whose threshold exceeds the one of the
    level below, in the order of the levels.  Nothing is written exactly when
    the thresholds do not increase with the quality. *)
Theorem setter_accepts_rising_table_with_warnings (table : gmap Z Z) (w : World) :
  hasEveryQuality table ->
  let o := setAvailableVideosThreshold table w in
  thrown o = None
  /\ _availableVideosThreshold (worldOf o) = table
  /\ console (worldOf o) = console w ++ warningsOf table
  /\ (console (worldOf o) = console w <-> nonIncreasing table).
Proof.
  intros Hall o. subst o. unfold setAvailableVideosThreshold.
  rewrite (_validateThreshold_complete table w Hall). cbn [andThen thrown worldOf].
  split; [reflexivity |].
  split; [rewrite _adjustVideoQualityIfNeeded_videos, _trigger_frame; reflexivity |].
  assert (Hconsole :
    console (_adjustVideoQualityIfNeeded
               (_trigger "change:availableVideosThreshold" table
                  (withVideosThreshold table
                     (withConsole (console w ++ warningsOf table) w))))
    = console w ++ warningsOf table).
  { rewrite _adjustVideoQualityIfNeeded_frame, _trigger_frame. reflexivity. }
  split; [exact Hconsole |].
  rewrite Hconsole, <- warningsOf_nil. split.
  - intros Heq. apply (f_equal length) in Heq. rewrite length_app in Heq.
    destruct (warningsOf table); [reflexivity | simpl in Heq; lia].
  - intros ->. apply app_nil_r.
Qed.

Lemma risingThreshold_hasEveryQuality : hasEveryQuality risingThreshold.
Proof.
  intros i Hi. unfold QUALITY.THUMBNAIL, QUALITY.HIGH in Hi.
  assert (Hcases : i = 0 \/ i = 1 \/ i = 2 \/ i = 3 \/ i = 4) by lia.
  destruct Hcases as [-> | [-> | [-> | [-> | ->]]]]; eexists; reflexivity.
Qed.

(** The table in which [LOW] asks for 8 videos and [VERY_LOW] for 7 is
    installed with one warning. *)
Lemma setter_accepts_rising_table_with_warnings_low :
  _availableVideosThreshold (worldOf (setAvailableVideosThreshold risingThreshold freshWorld))
  = risingThreshold
  /\ console (worldOf (setAvailableVideosThreshold risingThreshold freshWorld))
     = [ConsoleWarn QUALITY.LOW 8 7].
Proof.
  destruct (setter_accepts_rising_table_with_warnings risingThreshold freshWorld
              risingThreshold_hasEveryQuality) as (_ & Htable & Hconsole & _).
  split; [exact Htable |]. rewrite Hconsole. reflexivity.
Defined.

(** A setter that throws names the lowest level without an entry: the error is
    [No threshold for quality j] exactly when [j] is a level, the table has no
    entry for [j], and it has one for every level below [j]. *)
Theorem setter_error_names_lowest_missing_level (table : gmap Z Z) (w : World) (j : Z) :
  thrown (setAvailableVideosThreshold table w) = Some (NoThresholdForQuality j)
  <-> (QUALITY.THUMBNAIL <= j <= QUALITY.HIGH
       /\ table !! j = None
       /\ forall k, QUALITY.THUMBNAIL <= k < j -> is_Some (table !! k)).
Proof.
  unfold setAvailableVideosThreshold, _validateThreshold.
  destruct (validateQualities_outcome
              (Z.to_nat (QUALITY.HIGH + 1 - QUALITY.THUMBNAIL)) QUALITY.THUMBNAIL table w)
    as [(c & -> & Hall) | (c & j' & -> & Hj' & Hnone' & Hbefore')];
    cbn [andThen thrown]; unfold QUALITY.THUMBNAIL, QUALITY.HIGH in *; simpl in *.
  - split; [discriminate |].
    intros (Hj & Hnone & _). destruct (Hall j ltac:(lia)) as [x Hx]. congruence.
  - split.
    + intros Heq. inversion Heq. subst j'.
      split; [lia |]. split; [exact Hnone' | exact Hbefore'].
    + intros (Hj & Hnone & Hbefore).
      destruct (Z.lt_trichotomy j j') as [Hlt | [-> | Hgt]]; [| reflexivity |].
      * destruct (Hbefore' j ltac:(lia)) as [x Hx]. congruence.
      * destruct (Hbefore j' ltac:(lia)) as [x Hx]. congruence.
Qed.

(** ** The listeners of the throttler *)

Lemma listeners_on (event event' : string) (handler : nat) (w : World) :
  listeners event' (on event handler w)
  = listeners event' w ++ (if decide (event = event') then [handler] else []).
Proof.
  unfold on, listeners.
  destruct (_handlers w !! event) as [handlers|] eqn:Hevent;
    cbn [_handlers withHandlers]; rewrite lookup_insert; destruct (decide (event = event'))
      as [<- | Hne]; cbn [default]; rewrite ?Hevent, ?app_nil_r; reflexivity.
Qed.

Lemma listeners_off (event event' : string) (handler : nat) (w : World) :
  listeners event' (off event handler w)
  = if decide (event = event') then removeFirst handler (listeners event' w)
    else listeners event' w.
Proof.
  unfold off, listeners.
  destruct (_handlers w !! event) as [handlers|] eqn:Hevent.
  - cbn [_handlers withHandlers]. rewrite lookup_insert.
    destruct (decide (event = event')) as [<- | Hne]; [rewrite Hevent |]; reflexivity.
  - destruct (decide (event = event')) as [<- | Hne]; [rewrite Hevent |]; reflexivity.
Qed.

Lemma removeFirst_app_fresh {A} `{EqDecision A} (x : A) (l r : list A) :
  x ∉ l -> removeFirst x (l ++ x :: r) = l ++ r.
Proof.
  induction l as [|y l IH]; intros Hfresh; cbn [app].
  - apply removeFirst_head.
  - rewrite removeFirst_skip by (intros ->; apply Hfresh; left).
    rewrite IH; [reflexivity |]. intros Hin. apply Hfresh. right. exact Hin.
Qed.

(** For the two events of the throttler, a listener is notified after the
    listeners registered before it, once per registration: registering a
    handler for one of the events adds one notification, the last, to what a
    change of that event delivers, and leaves the other event as it was. *)
Theorem listener_registered_last_is_notified_last
    (event event' : string) (handler : nat) (table : gmap Z Z) (w : World) :
  throttlerEvent event ->
  throttlerEvent event' ->
  delivered (_trigger event' table (on event handler w))
  = delivered (_trigger event' table w)
    ++ (if decide (event = event') then [(handler, event', table)] else []).
Proof.
  intros _ _.
  rewrite !_trigger_delivered, listeners_on.
  assert (Hdelivered : delivered (on event handler w) = delivered w)
    by (unfold on; destruct (_handlers w !! event); reflexivity).
  rewrite Hdelivered, map_app, app_assoc.
  destruct (decide (event = event')); reflexivity.
Qed.

(** A second listener of the video thresholds is told after the first, and
    the listener of the audio thresholds is told as before. *)
Lemma listener_registered_last_is_notified_last_second :
  delivered
    (_trigger "change:availableVideosThreshold" moderatorThreshold
       (on "change:availableVideosThreshold" 5%nat listenedWorld))
  = [(0%nat, "change:availableVideosThreshold", moderatorThreshold);
     (5%nat, "change:availableVideosThreshold", moderatorThreshold)]
  /\ delivered
       (_trigger "change:availableAudiosThreshold" moderatorThreshold
          (on "change:availableVideosThreshold" 5%nat listenedWorld))
     = [(1%nat, "change:availableAudiosThreshold", moderatorThreshold)].
Proof.
  split.
  - rewrite (listener_registered_last_is_notified_last
               "change:availableVideosThreshold" "change:availableVideosThreshold"
               5%nat moderatorThreshold listenedWorld);
      [reflexivity | left; reflexivity | left; reflexivity].
  - rewrite (listener_registered_last_is_notified_last
               "change:availableVideosThreshold" "change:availableAudiosThreshold"
               5%nat moderatorThreshold listenedWorld);
      [reflexivity | left; reflexivity | right; reflexivity].
Defined.

(** For the two events of the throttler, [off] undoes [on] for a handler that
    was not registered for the event: both events are delivered as if the
    handler had never been registered. *)
Theorem off_after_on_restores_notifications
    (event event' : string) (handler : nat) (table : gmap Z Z) (w : World) :
  throttlerEvent event ->
  throttlerEvent event' ->
  handler ∉ listeners event w ->
  delivered (_trigger event' table (off event handler (on event handler w)))
  = delivered (_trigger event' table w).
Proof.
  intros _ _ Hfresh. rewrite !_trigger_delivered, listeners_off, listeners_on.
  assert (Hdelivered : delivered (off event handler (on event handler w)) = delivered w).
  { unfold off. destruct (_handlers (on event handler w) !! event);
      unfold on; destruct (_handlers w !! event); reflexivity. }
  rewrite Hdelivered.
  destruct (decide (event = event')) as [<- | Hne]; [| rewrite app_nil_r; reflexivity].
  rewrite removeFirst_app_fresh by exact Hfresh. rewrite app_nil_r. reflexivity.
Qed.

Lemma off_after_on_restores_notifications_fresh :
  delivered
    (_trigger "change:availableVideosThreshold" moderatorThreshold
       (off "change:availableVideosThreshold" 5%nat
          (on "change:availableVideosThreshold" 5%nat listenedWorld)))
  = [(0%nat, "change:availableVideosThreshold", moderatorThreshold)].
Proof.
  rewrite (off_after_on_restores_notifications "change:availableVideosThreshold"
             "change:availableVideosThreshold" 5%nat moderatorThreshold listenedWorld).
  - reflexivity.
  - left. reflexivity.
  - left. reflexivity.
  - vm_compute. intros Hin. apply list_elem_of_singleton in Hin. discriminate.
Defined.

(** For the two events of the throttler, [off] takes one registration away,
    the first: a handler registered twice and removed once is still notified
    once. *)
Theorem off_removes_one_registration
    (event : string) (handler : nat) (table : gmap Z Z) (w : World) :
  throttlerEvent event ->
  handler ∉ listeners event w ->
  delivered (_trigger event table
               (off event handler (on event handler (on event handler w))))
  = delivered (_trigger event table w) ++ [(handler, event, table)].
Proof.
  intros _ Hfresh. rewrite !_trigger_delivered, listeners_off, !listeners_on.
  assert (Hdelivered :
    delivered (off event handler (on event handler (on event handler w))) = delivered w).
  { unfold off. destruct (_handlers (on event handler (on event handler w)) !! event);
      cbn [delivered withHandlers]; unfold on at 1;
      destruct (_handlers (on event handler w) !! event);
      cbn [delivered withHandlers]; unfold on; destruct (_handlers w !! event); reflexivity. }
  rewrite Hdelivered. destruct (decide (event = event)) as [_ | Hne]; [| contradiction].
  rewrite <- app_assoc. cbn [app].
  rewrite removeFirst_app_fresh by exact Hfresh.
  rewrite map_app, app_assoc. reflexivity.
Qed.

Lemma off_removes_one_registration_fresh :
  delivered
    (_trigger "change:availableAudiosThreshold" moderatorThreshold
       (off "change:availableAudiosThreshold" 5%nat
          (on "change:availableAudiosThreshold" 5%nat
             (on "change:availableAudiosThreshold" 5%nat freshWorld))))
  = [(5%nat, "change:availableAudiosThreshold", moderatorThreshold)].
Proof.
  rewrite (off_removes_one_registration "change:availableAudiosThreshold" 5%nat
             moderatorThreshold freshWorld).
  - reflexivity.
  - right. reflexivity.
  - vm_compute. apply not_elem_of_nil.
Defined.

(** ** Starting and stopping to listen *)

Lemma unsubscribe_participants_after (models : list CallParticipantModel)
    (subs : list Subscription) :
  (forall m, m ∈ models -> participantSubscription m ∉ subs) ->
  fold_left
    (fun subs m => removeFirst (TheCallParticipantModel (peerId m), "change:videoAvailable",
                                _adjustVideoQualityIfNeededBound) subs)
    models (subs ++ map participantSubscription models)
  = subs.
Proof.
  induction models as [|m models IH]; intros Hfresh; cbn [fold_left map].
  - apply app_nil_r.
  - change (TheCallParticipantModel (peerId m), "change:videoAvailable",
            _adjustVideoQualityIfNeededBound) with (participantSubscription m).
    rewrite removeFirst_app_fresh by (apply Hfresh; left).
    apply IH. intros m' Hin. apply Hfresh. right. exact Hin.
Qed.

(** Stopping to listen undoes the subscriptions of starting to listen: when
    the throttler holds none of the subscriptions of the listening phase, it
    holds after [_startListeningToChanges] and [_stopListeningToChanges]
    exactly the subscriptions it held before, in the same order. *)
Theorem stop_after_start_restores_subscriptions (w : World) :
  (forall s, s ∈ listeningSubscriptions -> s ∉ subscriptions w) ->
  (forall m, m ∈ callParticipantModels w -> participantSubscription m ∉ subscriptions w) ->
  subscriptions (_stopListeningToChanges (_startListeningToChanges w)) = subscriptions w.
Proof.
  intros Hfive Hparticipants.
  destruct (_stopListeningToChanges_subscriptions (_startListeningToChanges w)) as (-> & _).
  destruct (_startListeningToChanges_subscriptions w) as (-> & ->).
  assert (Hfresh : forall s, s ∈ listeningSubscriptions -> s ∉ subscriptions w) by exact Hfive.
  unfold listeningSubscriptions in Hfresh.
  cbn [app].
  rewrite removeFirst_app_fresh by (apply Hfresh; set_solver).
  rewrite removeFirst_app_fresh by (apply Hfresh; set_solver).
  rewrite removeFirst_app_fresh by (apply Hfresh; set_solver).
  rewrite removeFirst_app_fresh by (apply Hfresh; set_solver).
  rewrite removeFirst_app_fresh by (apply Hfresh; set_solver).
  apply unsubscribe_participants_after. exact Hparticipants.
Qed.

Lemma stop_after_start_restores_subscriptions_dormant :
  subscriptions (_stopListeningToChanges (_startListeningToChanges dormantWorld))
  = [signalingSubscription;
     (TheLocalMediaModel, "change:videoAvailable", _handleLocalVideoAvailableChangeBound)].
Proof.
  rewrite (stop_after_start_restores_subscriptions dormantWorld).
  - reflexivity.
  - intros s Hs Hin. vm_compute in Hs, Hin.
    repeat (apply elem_of_cons in Hin; destruct Hin as [-> | Hin]);
      [| | apply elem_of_nil in Hin; exact Hin];
      repeat (apply elem_of_cons in Hs; destruct Hs as [Hs | Hs]; [discriminate |]);
      apply elem_of_nil in Hs; exact Hs.
  - intros m _ Hin. vm_compute in Hin.
    repeat (apply elem_of_cons in Hin; destruct Hin as [Hin | Hin]; [discriminate |]).
    apply elem_of_nil in Hin. exact Hin.
Defined.

(** ** Invariants of the reachable worlds *)

Lemma reachable_invariant (P : World -> Prop) :
  (forall media models time, P (SentVideoQualityThrottler media models time)) ->
  (forall ev w o, P w -> step ev w = Some o -> P (worldOf o)) ->
  forall w, reachable w -> P w.
Proof.
  intros Hnew Hstep w Hw. induction Hw as [media models time | ev w o _ IH Hev].
  - apply Hnew.
  - apply (Hstep ev w o IH Hev).
Qed.

(** A property of worlds that every write of the throttler and of its
    collaborators keeps is kept by every method and every event, and holds in
    every reachable world. *)
Section Invariant.

Variable P : World -> Prop.

Hypothesis P_blank : forall media models time, P (blankWorld media models time).
Hypothesis P_localMediaModel : forall x w, P w -> P (withLocalMediaModel x w).
Hypothesis P_callParticipantModels : forall x w, P w -> P (withCallParticipantModels x w).
Hypothesis P_now : forall x w, now w <= x -> P w -> P (withNow x w).
Hypothesis P_subscribe :
  forall s w, throttlerSubscription s -> P w ->
              P (withSubscriptions (subscriptions w ++ [s]) w).
Hypothesis P_unsubscribe :
  forall s w, P w -> P (withSubscriptions (removeFirst s (subscriptions w)) w).
Hypothesis P_clearTimeout : forall handle w, P w -> P (clearTimeout handle w).
Hypothesis P_setTimeout :
  forall w, P w ->
            P (withGraceTimeout (Some (nextTimeoutHandle w)) (snd (setTimeout 5000 w))).
Hypothesis P_noTimeout : forall w, P w -> P (withGraceTimeout None w).
Hypothesis P_speakingOrInGrace : forall x w, P w -> P (withSpeakingOrInGrace x w).
Hypothesis P_applyConstraints :
  forall w, videoAvailable (localMediaModel w) = true ->
            videoEnabled (localMediaModel w) = true ->
            P w -> P (applyConstraints (_getQualityForState w) w).
Hypothesis P_videosThreshold :
  forall table w, hasEveryQuality table -> P w -> P (withVideosThreshold table w).
Hypothesis P_audiosThreshold :
  forall table w, hasEveryQuality table -> P w -> P (withAudiosThreshold table w).
Hypothesis P_delivered : forall x w, P w -> P (withDelivered x w).
Hypothesis P_console : forall x w, P w -> P (withConsole x w).
Hypothesis P_handlers : forall x w, P w -> P (withHandlers x w).

Lemma kept_by_adjust (w : World) : P w -> P (_adjustVideoQualityIfNeeded w).
Proof.
  intros Hw. unfold _adjustVideoQualityIfNeeded.
  destruct (videoAvailable (localMediaModel w)) eqn:Havailable; [| exact Hw].
  destruct (videoEnabled (localMediaModel w)) eqn:Henabled; [| exact Hw].
  apply P_applyConstraints; assumption.
Qed.

Lemma kept_by_audio_handler (w : World) : P w -> P (_handleLocalAudioEnabledChange w).
Proof.
  intros Hw. unfold _handleLocalAudioEnabledChange.
  destruct (audioEnabled (localMediaModel w)); [exact Hw |].
  apply kept_by_adjust, P_speakingOrInGrace, P_noTimeout, P_clearTimeout. exact Hw.
Qed.

Lemma kept_by_speaking_handler (w : World) : P w -> P (_handleLocalSpeakingChange w).
Proof.
  intros Hw. unfold _handleLocalSpeakingChange.
  destruct (speaking (localMediaModel w)).
  - apply kept_by_adjust, P_speakingOrInGrace, P_noTimeout, P_clearTimeout. exact Hw.
  - apply (P_setTimeout w Hw).
Qed.

Lemma kept_by_emitterOn (e : Emitter) (event : string) (b : Bound) (w : World) :
  throttlerSubscription (e, event, b) -> P w -> P (emitterOn e event b w).
Proof. intros Hs Hw. apply P_subscribe; assumption. Qed.

Lemma kept_by_emitterOff (e : Emitter) (event : string) (b : Bound) (w : World) :
  P w -> P (emitterOff e event b w).
Proof. intros Hw. apply P_unsubscribe. exact Hw. Qed.

Lemma kept_by_subscribing_participants (models : list CallParticipantModel) (w : World) :
  P w ->
  P (fold_left
       (fun w callParticipantModel =>
          emitterOn (TheCallParticipantModel (peerId callParticipantModel))
            "change:videoAvailable" _adjustVideoQualityIfNeededBound w)
       models w).
Proof.
  revert w. induction models as [|m models IH]; intros w Hw; cbn [fold_left]; [exact Hw |].
  apply IH, kept_by_emitterOn; [| exact Hw].
  right. right. right. exists (peerId m). reflexivity.
Qed.

Lemma kept_by_unsubscribing_participants (models : list CallParticipantModel) (w : World) :
  P w ->
  P (fold_left
       (fun w callParticipantModel =>
          emitterOff (TheCallParticipantModel (peerId callParticipantModel))
            "change:videoAvailable" _adjustVideoQualityIfNeededBound w)
       models w).
Proof.
  revert w. induction models as [|m models IH]; intros w Hw; cbn [fold_left]; [exact Hw |].
  apply IH, kept_by_emitterOff. exact Hw.
Qed.

Lemma listening_is_throttlerSubscription (s : Subscription) :
  s ∈ listeningSubscriptions -> throttlerSubscription s.
Proof. intros Hs. right. right. left. exact Hs. Qed.

Lemma kept_by_start (w : World) : P w -> P (_startListeningToChanges w).
Proof.
  intros Hw. unfold _startListeningToChanges.
  apply kept_by_adjust, kept_by_audio_handler, kept_by_speaking_handler,
    kept_by_subscribing_participants.
  repeat (apply kept_by_emitterOn;
          [apply listening_is_throttlerSubscription; unfold listeningSubscriptions;
           repeat (first [apply list_elem_of_here | apply list_elem_of_further]) |]).
  exact Hw.
Qed.

Lemma kept_by_stop (w : World) : P w -> P (_stopListeningToChanges w).
Proof.
  intros Hw. unfold _stopListeningToChanges.
  apply kept_by_unsubscribing_participants.
  repeat apply kept_by_emitterOff. exact Hw.
Qed.

Lemma kept_by_destroy (w : World) : P w -> P (destroy w).
Proof.
  intros Hw. unfold destroy. apply kept_by_stop, kept_by_emitterOff. exact Hw.
Qed.

Lemma kept_by_trigger (event : string) (table : gmap Z Z) (w : World) :
  P w -> P (_trigger event table w).
Proof. intros Hw. rewrite _trigger_frame. apply P_delivered. exact Hw. Qed.

Lemma kept_by_setAvailableVideosThreshold (table : gmap Z Z) (w : World) :
  P w -> P (worldOf (setAvailableVideosThreshold table w)).
Proof.
  intros Hw.
  destruct (setAvailableVideosThreshold_outcome table w)
    as [(Hall & c & ->) | (_ & c & j & -> & _)]; cbn [worldOf].
  - apply kept_by_adjust, kept_by_trigger, P_videosThreshold; [exact Hall |].
    apply P_console. exact Hw.
  - apply P_console. exact Hw.
Qed.

Lemma kept_by_setAvailableAudiosThreshold (table : gmap Z Z) (w : World) :
  P w -> P (worldOf (setAvailableAudiosThreshold table w)).
Proof.
  intros Hw.
  destruct (setAvailableAudiosThreshold_outcome table w)
    as [(Hall & c & ->) | (_ & c & j & -> & _)]; cbn [worldOf].
  - apply kept_by_adjust, kept_by_trigger, P_audiosThreshold; [exact Hall |].
    apply P_console. exact Hw.
  - apply P_console. exact Hw.
Qed.

Lemma kept_by_signaling_handler (message : Message) (w : World) :
  P w -> P (worldOf (_handleSignalingMessage message w)).
Proof.
  intros Hw. unfold _handleSignalingMessage.
  destruct (negb _); [exact Hw |].
  destruct (bool_decide (action (payload message) = "forceAvailableVideosThreshold")).
  { apply kept_by_setAvailableVideosThreshold, P_console. exact Hw. }
  destruct (bool_decide (action (payload message) = "forceAvailableAudiosThreshold")).
  { apply kept_by_setAvailableAudiosThreshold, P_console. exact Hw. }
  exact Hw.
Qed.

Lemma kept_by_on (event : string) (handler : nat) (w : World) : P w -> P (on event handler w).
Proof.
  intros Hw. unfold on. destruct (_handlers w !! event); apply P_handlers; exact Hw.
Qed.

Lemma kept_by_off (event : string) (handler : nat) (w : World) :
  P w -> P (off event handler w).
Proof.
  intros Hw. unfold off. destruct (_handlers w !! event); [apply P_handlers |]; exact Hw.
Qed.

Lemma kept_by_call (b : Bound) (a : Argument) (w : World) :
  P w -> P (worldOf (call b a w)).
Proof.
  intros Hw. destruct b, a; cbn [call worldOf]; try exact Hw;
    try (apply kept_by_audio_handler; exact Hw);
    try (apply kept_by_speaking_handler; exact Hw);
    try (apply kept_by_adjust; exact Hw).
  - apply kept_by_signaling_handler. exact Hw.
  - unfold _handleLocalVideoAvailableChange.
    destruct value; [apply kept_by_start | apply kept_by_stop]; exact Hw.
  - unfold _handleAddParticipant. apply kept_by_adjust, kept_by_emitterOn; [| exact Hw].
    right. right. right. eexists. reflexivity.
  - unfold _handleRemoveParticipant. apply kept_by_adjust, kept_by_emitterOff. exact Hw.
Qed.

Lemma kept_by_calls (bs : list Bound) (a : Argument) (o : Outcome) :
  P (worldOf o) -> P (worldOf (fold_left (fun o b => o >>= call b a) bs o)).
Proof.
  revert o. induction bs as [|b bs IH]; intros o Ho; cbn [fold_left]; [exact Ho |].
  apply IH. destruct o as [w | e w]; cbn [andThen worldOf] in *; [| exact Ho].
  apply kept_by_call. exact Ho.
Qed.

Lemma kept_by_emit (e : Emitter) (event : string) (a : Argument) (w : World) :
  P w -> P (worldOf (emit e event a w)).
Proof. intros Hw. unfold emit. apply kept_by_calls. exact Hw. Qed.

Lemma kept_by_step (ev : Event) (w : World) (o : Outcome) :
  P w -> step ev w = Some o -> P (worldOf o).
Proof.
  intros Hw Hstep. destruct ev; cbn [step] in Hstep.
  - destruct (bool_decide _); [discriminate |]. inversion Hstep.
    apply kept_by_emit, P_localMediaModel. exact Hw.
  - destruct (findParticipant peer (callParticipantModels w)); [| discriminate].
    destruct (bool_decide _); [discriminate |]. inversion Hstep.
    apply kept_by_emit, P_callParticipantModels. exact Hw.
  - destruct (findParticipant _ (callParticipantModels w)); [discriminate |].
    inversion Hstep. apply kept_by_emit, P_callParticipantModels. exact Hw.
  - destruct (findParticipant peer (callParticipantModels w)); [| discriminate].
    inversion Hstep. apply kept_by_emit, P_callParticipantModels. exact Hw.
  - inversion Hstep. apply kept_by_emit. exact Hw.
  - destruct (0 <=? milliseconds) eqn:Hms; [| discriminate]. inversion Hstep.
    cbn [worldOf]. apply Z.leb_le in Hms. apply P_now; [lia | exact Hw].
  - destruct (List.find _ (pendingTimeouts w)) as [[h due]|]; [| discriminate].
    destruct (due <=? now w); [| discriminate]. inversion Hstep. cbn [worldOf].
    unfold gracePeriodAfterSpeakingElapsed.
    apply kept_by_adjust, P_speakingOrInGrace.
    apply (P_clearTimeout (Some handle) w Hw).
  - inversion Hstep. apply kept_by_setAvailableVideosThreshold. exact Hw.
  - inversion Hstep. apply kept_by_setAvailableAudiosThreshold. exact Hw.
  - inversion Hstep. apply kept_by_on. exact Hw.
  - inversion Hstep. apply kept_by_off. exact Hw.
  - inversion Hstep. apply kept_by_destroy. exact Hw.
Qed.

Lemma kept_by_constructor (media : LocalMediaModel) (models : list CallParticipantModel)
    (time : Z) :
  P (SentVideoQualityThrottler media models time).
Proof.
  unfold SentVideoQualityThrottler. fold (blankWorld media models time).
  assert (Hsubscribed :
    P (emitterOn TheLocalMediaModel "change:videoAvailable"
         _handleLocalVideoAvailableChangeBound
         (emitterOn TheSignaling "message" _handleSignalingMessageBound
            (blankWorld media models time)))).
  { apply kept_by_emitterOn; [right; left; reflexivity |].
    apply kept_by_emitterOn; [left; reflexivity |]. apply P_blank. }
  destruct (videoAvailable media); [apply kept_by_start |]; exact Hsubscribed.
Qed.

Lemma kept_in_reachable (w : World) : reachable w -> P w.
Proof.
  apply reachable_invariant.
  - apply kept_by_constructor.
  - apply kept_by_step.
Qed.

End Invariant.

(** In every reachable world the constraint applier has only been called with
    levels of the quality scale, from [THUMBNAIL] to [HIGH]. *)
Theorem reachable_applied_levels (w : World) :
  reachable w ->
  forall quality, quality ∈ appliedConstraints w ->
                  QUALITY.THUMBNAIL <= quality <= QUALITY.HIGH.
Proof.
  revert w. apply (kept_in_reachable appliedLevels); try (intros; assumption).
  - intros media models time quality Hin. apply elem_of_nil in Hin. destruct Hin.
  - intros [h|] w Hw; exact Hw.
  - intros w _ _ Hw quality Hin. unfold applyConstraints in Hin.
    cbn [appliedConstraints withAppliedConstraints] in Hin.
    apply elem_of_app in Hin. destruct Hin as [Hin | Hin]; [apply Hw; exact Hin |].
    apply list_elem_of_singleton in Hin. subst quality. apply _getQualityForState_range.
Qed.

Lemma reachable_applied_levels_call :
  QUALITY.LOW ∈ appliedConstraints (worldOfCall 8 9)
  /\ QUALITY.THUMBNAIL <= QUALITY.LOW <= QUALITY.HIGH.
Proof.
  assert (Happlied : appliedConstraints (worldOfCall 8 9) = [QUALITY.LOW])
    by (vm_compute; reflexivity).
  assert (Hin : QUALITY.LOW ∈ appliedConstraints (worldOfCall 8 9))
    by (rewrite Happlied; apply list_elem_of_singleton; reflexivity).
  split; [exact Hin |].
  apply (reachable_applied_levels (worldOfCall 8 9)); [apply reachable_new | exact Hin].
Defined.

Lemma distinct_handles_filter (keep : Z * Z -> Prop) `{forall t, Decision (keep t)}
    (pending : list (Z * Z)) :
  NoDup (map fst pending) -> NoDup (map fst (filter keep pending)).
Proof.
  induction pending as [|t pending IH]; intros Hdistinct; [exact Hdistinct |].
  cbn [map] in Hdistinct. apply NoDup_cons in Hdistinct. destruct Hdistinct as [Hfresh Hrest].
  rewrite filter_cons. destruct (decide (keep t)); [| apply IH; exact Hrest].
  cbn [map]. apply NoDup_cons. split; [| apply IH; exact Hrest].
  intros Hin. apply Hfresh.
  apply list_elem_of_fmap in Hin. destruct Hin as (t' & Heq & Hin).
  apply list_elem_of_filter in Hin. destruct Hin as [_ Hin].
  apply list_elem_of_fmap. exists t'. split; assumption.
Qed.

Lemma reachable_timeoutsInOrder (w : World) : reachable w -> timeoutsInOrder w.
Proof.
  revert w. apply (kept_in_reachable timeoutsInOrder); try (intros; assumption).
  - intros media models time. split; [apply NoDup_nil; exact I |].
    split; [intros t Hin; apply elem_of_nil in Hin; destruct Hin | discriminate].
  - intros x w Hle (Hdistinct & Hpending & Hheld).
    split; [exact Hdistinct |]. split; [| exact Hheld].
    intros t Hin. destruct (Hpending t Hin) as [Hhandle Hdue].
    cbn [now nextTimeoutHandle withNow]. split; [exact Hhandle | lia].
  - intros [h|] w (Hdistinct & Hpending & Hheld);
      [| exact (conj Hdistinct (conj Hpending Hheld))].
    split; [apply distinct_handles_filter; exact Hdistinct |].
    split; [| exact Hheld].
    intros t Hin. cbn [clearTimeout pendingTimeouts withTimeouts] in Hin.
    apply list_elem_of_filter in Hin. destruct Hin as [_ Hin]. apply Hpending. exact Hin.
  - intros w (Hdistinct & Hpending & Hheld).
    cbn [setTimeout snd]. unfold timeoutsInOrder.
    cbn [pendingTimeouts nextTimeoutHandle now _gracePeriodAfterSpeakingTimeout
         withGraceTimeout withTimeouts].
    split; [| split].
    + rewrite map_app. apply NoDup_app. split; [exact Hdistinct |].
      split; [| apply NoDup_singleton].
      intros h Hin Hnew. cbn [map fst] in Hnew.
      apply list_elem_of_singleton in Hnew. subst h.
      apply list_elem_of_fmap in Hin. destruct Hin as (t & Heq & Hin).
      destruct (Hpending t Hin) as [Hhandle _]. lia.
    + intros t Hin. apply elem_of_app in Hin. destruct Hin as [Hin | Hin].
      * destruct (Hpending t Hin) as [Hhandle Hdue]. split; [lia | exact Hdue].
      * apply list_elem_of_singleton in Hin. subst t. cbn [fst snd]. lia.
    + intros handle Heq. inversion Heq. lia.
  - intros w (Hdistinct & Hpending & _).
    split; [exact Hdistinct |]. split; [exact Hpending | discriminate].
Qed.

(** In every reachable world the pending timeouts have distinct handles and
    none of them is due later than 5000 milliseconds from now: however the grace
    period is entered, left and entered again, the throttler stays in it for at
    most five seconds after the last timeout was created. *)
Theorem reachable_timeouts_distinct_and_due_soon (w : World) :
  reachable w ->
  NoDup (map fst (pendingTimeouts w))
  /\ forall handle due, (handle, due) ∈ pendingTimeouts w -> due <= now w + 5000.
Proof.
  intros Hw. destruct (reachable_timeoutsInOrder w Hw) as (Hdistinct & Hpending & _).
  split; [exact Hdistinct |].
  intros handle due Hin. destruct (Hpending (handle, due) Hin) as [_ Hdue]. exact Hdue.
Qed.

Lemma reachable_timeouts_distinct_and_due_soon_fresh :
  NoDup (map fst (pendingTimeouts freshWorld))
  /\ ((1, 5000) ∈ pendingTimeouts freshWorld -> 5000 <= now freshWorld + 5000).
Proof.
  destruct (reachable_timeouts_distinct_and_due_soon freshWorld
              (reachable_new sendingQuietly [] 0)) as [Hdistinct Hdue].
  split; [exact Hdistinct | apply Hdue].
Defined.

Lemma removeFirst_subset {A} `{EqDecision A} (x y : A) (l : list A) :
  y ∈ removeFirst x l -> y ∈ l.
Proof.
  induction l as [|z l IH]; cbn [removeFirst]; [intros Hin; exact Hin |].
  destruct (decide (x = z)).
  - intros Hin. right. exact Hin.
  - intros Hin. apply elem_of_cons in Hin. destruct Hin as [-> | Hin]; [left | right].
    apply IH. exact Hin.
Qed.

Lemma reachable_knownSubscriptions (w : World) : reachable w -> knownSubscriptions w.
Proof.
  revert w. apply (kept_in_reachable knownSubscriptions); try (intros; assumption).
  - intros media models time s Hin. apply elem_of_nil in Hin. destruct Hin.
  - intros s w Hs Hw s' Hin. cbn [subscriptions withSubscriptions] in Hin.
    apply elem_of_app in Hin. destruct Hin as [Hin | Hin]; [apply Hw; exact Hin |].
    apply list_elem_of_singleton in Hin. subst s'. exact Hs.
  - intros s w Hw s' Hin. cbn [subscriptions withSubscriptions] in Hin.
    apply Hw. apply (removeFirst_subset s). exact Hin.
  - intros [h|] w Hw; exact Hw.
Qed.

Lemma throttlerSubscription_not_audioAvailable (s : Subscription) (e : Emitter) :
  throttlerSubscription s -> fst s <> (e, "change:audioAvailable").
Proof.
  intros [-> | [-> | [Hs | (peer & ->)]]]; try discriminate.
  unfold listeningSubscriptions in Hs.
  repeat (apply elem_of_cons in Hs; destruct Hs as [-> | Hs]; [discriminate |]).
  apply elem_of_nil in Hs. destruct Hs.
Qed.

(** The throttler never hears of a change of [audioAvailable]: in every
    reachable world, when the audio of a participant becomes available or
    unavailable no method of the throttler runs, so nothing changes but the
    participant model and the constraint applier is not called, although the
    number of available audios is one of the two counts of the decision. *)
Theorem audio_availability_change_goes_unnoticed (w : World) (peer : Z) (value : bool)
    (o : Outcome) :
  reachable w ->
  step (ParticipantChanges peer RemoteAudioAvailable value) w = Some o ->
  o = Done (withCallParticipantModels (callParticipantModels (worldOf o)) w)
  /\ appliedConstraints (worldOf o) = appliedConstraints w.
Proof.
  intros Hw Hstep. pose proof (reachable_knownSubscriptions w Hw) as Hknown.
  cbn [step] in Hstep.
  destruct (findParticipant peer (callParticipantModels w)); [| discriminate].
  destruct (bool_decide _); [discriminate |].
  inversion Hstep as [Ho]. clear Hstep Ho.
  assert (Hnone : registered (TheCallParticipantModel peer) "change:audioAvailable"
                    (subscriptions w) = []).
  { unfold registered.
    match goal with
    | |- map _ ?l = [] => assert (Hempty : l = []); [| rewrite Hempty; reflexivity]
    end.
    apply elem_of_nil_inv. intros s Hin. apply list_elem_of_filter in Hin.
    destruct Hin as [Hevent Hin].
    apply (throttlerSubscription_not_audioAvailable s (TheCallParticipantModel peer));
      [apply Hknown; exact Hin | exact Hevent]. }
  unfold emit. cbn [subscriptions withCallParticipantModels remoteChangeEvent].
  rewrite Hnone. cbn [fold_left worldOf]. split; reflexivity.
Qed.

(** In a call of nineteen participants with audio a twentieth audio would
    bring the decision from [HIGH] to [MEDIUM]; the throttler is not told. *)
Lemma audio_availability_change_goes_unnoticed_call :
  exists o,
    step (ParticipantChanges 0 RemoteAudioAvailable true) (worldOfCall 3 20) = Some o
    /\ appliedConstraints (worldOf o) = appliedConstraints (worldOfCall 3 20).
Proof.
  destruct (step (ParticipantChanges 0 RemoteAudioAvailable true) (worldOfCall 3 20))
    as [o|] eqn:Hstep; [| vm_compute in Hstep; discriminate].
  exists o. split; [reflexivity |].
  apply (audio_availability_change_goes_unnoticed (worldOfCall 3 20) 0 true o);
    [apply reachable_new | exact Hstep].
Defined.

(** ** Re-evaluation across events *)

Lemma appliedOnlyWhileSending_start (w : World) :
  appliedOnlyWhileSending (localMediaModel w) (appliedConstraints w) w.
Proof. split; [reflexivity | intros _; reflexivity]. Qed.

Lemma appliedOnlyWhileSending_apply (m : LocalMediaModel) (l : list Z) (w : World) :
  videoAvailable (localMediaModel w) = true ->
  videoEnabled (localMediaModel w) = true ->
  appliedOnlyWhileSending m l w ->
  appliedOnlyWhileSending m l (applyConstraints (_getQualityForState w) w).
Proof.
  intros Havailable Henabled [Hm Hl]. split; [exact Hm |].
  intros Hoff. rewrite <- Hm, Havailable, Henabled in Hoff. discriminate.
Qed.

Lemma appliedOnlyWhileSending_clearTimeout (m : LocalMediaModel) (l : list Z)
    (handle : option Z) (w : World) :
  appliedOnlyWhileSending m l w -> appliedOnlyWhileSending m l (clearTimeout handle w).
Proof. destruct handle; intros Hw; exact Hw. Qed.

Ltac keeps_appliedOnlyWhileSending :=
  try (intros; assumption);
  try apply appliedOnlyWhileSending_clearTimeout;
  try apply appliedOnlyWhileSending_apply;
  try apply appliedOnlyWhileSending_start.

Lemma emit_appliedOnlyWhileSending (e : Emitter) (event : string) (a : Argument)
    (w : World) :
  appliedOnlyWhileSending (localMediaModel w) (appliedConstraints w)
    (worldOf (emit e event a w)).
Proof.
  apply (kept_by_emit (appliedOnlyWhileSending (localMediaModel w) (appliedConstraints w)));
    keeps_appliedOnlyWhileSending.
Qed.

Ltac by_emit_appliedOnlyWhileSending :=
  match goal with
  | H : emit ?e ?event ?a ?w1 = ?o |- _ =>
      subst o; exists (localMediaModel w1);
      exact (emit_appliedOnlyWhileSending e event a w1)
  end.

(** While the local video is unavailable or disabled nothing calls the
    constraint applier: whatever the event (a change of the local media or of
    a participant, an addition or removal, a message of a moderator, a timeout,
    a call of a public method) and whatever the subscriptions, if the local
    media model does not send video once the event is handled, the applier
    was not called. *)
Theorem no_event_applies_constraints_while_not_sending (ev : Event) (w : World)
    (o : Outcome) :
  step ev w = Some o ->
  videoAvailable (localMediaModel (worldOf o)) && videoEnabled (localMediaModel (worldOf o))
  = false ->
  appliedConstraints (worldOf o) = appliedConstraints w.
Proof.
  intros Hstep Hoff.
  assert (Hkept : exists m, appliedOnlyWhileSending m (appliedConstraints w) (worldOf o)).
  { destruct ev; cbn [step] in Hstep.
    - destruct (bool_decide _); [discriminate |]. inversion Hstep.
      by_emit_appliedOnlyWhileSending.
    - destruct (findParticipant peer (callParticipantModels w)); [| discriminate].
      destruct (bool_decide _); [discriminate |]. inversion Hstep.
      by_emit_appliedOnlyWhileSending.
    - destruct (findParticipant _ (callParticipantModels w)); [discriminate |].
      inversion Hstep. by_emit_appliedOnlyWhileSending.
    - destruct (findParticipant peer (callParticipantModels w)); [| discriminate].
      inversion Hstep. by_emit_appliedOnlyWhileSending.
    - inversion Hstep. by_emit_appliedOnlyWhileSending.
    - destruct (0 <=? milliseconds); [| discriminate]. inversion Hstep. subst o.
      exists (localMediaModel w). exact (appliedOnlyWhileSending_start w).
    - destruct (List.find _ (pendingTimeouts w)) as [[h due]|]; [| discriminate].
      destruct (due <=? now w); [| discriminate]. inversion Hstep. subst o.
      exists (localMediaModel w). cbn [worldOf]. unfold gracePeriodAfterSpeakingElapsed.
      apply (kept_by_adjust
               (appliedOnlyWhileSending (localMediaModel w) (appliedConstraints w)));
        [apply appliedOnlyWhileSending_apply | exact (appliedOnlyWhileSending_start w)].
    - inversion Hstep. subst o. exists (localMediaModel w).
      apply (kept_by_setAvailableVideosThreshold
               (appliedOnlyWhileSending (localMediaModel w) (appliedConstraints w)));
        keeps_appliedOnlyWhileSending.
    - inversion Hstep. subst o. exists (localMediaModel w).
      apply (kept_by_setAvailableAudiosThreshold
               (appliedOnlyWhileSending (localMediaModel w) (appliedConstraints w)));
        keeps_appliedOnlyWhileSending.
    - inversion Hstep. subst o. exists (localMediaModel w). cbn [worldOf].
      unfold on. destruct (_handlers w !! event); exact (appliedOnlyWhileSending_start w).
    - inversion Hstep. subst o. exists (localMediaModel w). cbn [worldOf].
      unfold off. destruct (_handlers w !! event); exact (appliedOnlyWhileSending_start w).
    - inversion Hstep. subst o. exists (localMediaModel w). cbn [worldOf].
      apply (kept_by_destroy
               (appliedOnlyWhileSending (localMediaModel w) (appliedConstraints w)));
        keeps_appliedOnlyWhileSending. }
  destruct Hkept as (m & Hm & Hl). apply Hl. rewrite <- Hm. exact Hoff.
Qed.

(** The camera is switched off while eight videos are available: the
    re-evaluation that follows does not reach the applier. *)
Lemma no_event_applies_constraints_while_not_sending_disabled :
  exists o,
    step (LocalMediaChanges VideoEnabled false) (worldOfCall 8 9) = Some o
    /\ appliedConstraints (worldOf o) = appliedConstraints (worldOfCall 8 9).
Proof.
  destruct (step (LocalMediaChanges VideoEnabled false) (worldOfCall 8 9))
    as [o|] eqn:Hstep; [| vm_compute in Hstep; discriminate].
  exists o. split; [reflexivity |].
  apply (no_event_applies_constraints_while_not_sending
           (LocalMediaChanges VideoEnabled false) (worldOfCall 8 9) o Hstep).
  vm_compute in Hstep. inversion Hstep. reflexivity.
Defined.

(** ** Timeouts across the other methods *)

Lemma destroy_frame (w : World) :
  destroy w = withSubscriptions (subscriptions (destroy w)) w.
Proof.
  unfold destroy, _stopListeningToChanges.
  rewrite unsubscribe_each_participant. reflexivity.
Qed.

Lemma _adjustVideoQualityIfNeeded_grace (w : World) :
  _speakingOrInGracePeriodAfterSpeaking (_adjustVideoQualityIfNeeded w)
  = _speakingOrInGracePeriodAfterSpeaking w
  /\ pendingTimeouts (_adjustVideoQualityIfNeeded w) = pendingTimeouts w.
Proof. rewrite _adjustVideoQualityIfNeeded_frame. split; reflexivity. Qed.

(** [destroy] does not clear the timeout of the grace period: a timeout that
    is pending and due when the throttler is destroyed still fires afterwards,
    ends the grace period and, when the local video is available and enabled,
    calls the constraint applier. *)
Theorem timeout_fires_after_destroy (w : World) (handle : Z) (t : Z * Z) :
  pendingTimeout handle w = Some t ->
  snd t <= now w ->
  pendingTimeouts (destroy w) = pendingTimeouts w
  /\ exists w',
      step (TimeoutFires handle) (destroy w) = Some (Done w')
      /\ _speakingOrInGracePeriodAfterSpeaking w' = false
      /\ appliedConstraints w'
         = appliedConstraints w
           ++ (if videoAvailable (localMediaModel w) && videoEnabled (localMediaModel w)
               then [_getQualityForState w'] else []).
Proof.
  intros Hpending Hdue. rewrite destroy_frame.
  split; [reflexivity |].
  cbn [step pendingTimeouts now withSubscriptions].
  unfold pendingTimeout in Hpending. rewrite Hpending. destruct t as [h due].
  cbn [snd] in Hdue. apply Z.leb_le in Hdue. rewrite Hdue.
  eexists. split; [reflexivity |].
  unfold gracePeriodAfterSpeakingElapsed.
  split; [rewrite _adjustVideoQualityIfNeeded_frame; reflexivity |].
  rewrite _adjustVideoQualityIfNeeded_applied.
  match goal with
  | |- context [_getQualityForState (_adjustVideoQualityIfNeeded ?x)] =>
      rewrite (_adjustVideoQualityIfNeeded_frame x)
  end.
  reflexivity.
Qed.

(** The throttler of a quiet participant is destroyed five seconds after its
    creation; the timeout of its creation fires and the applier is called
    again. *)
Lemma timeout_fires_after_destroy_five_seconds_later :
  exists w',
    step (TimeoutFires 1) (destroy fiveSecondsLater) = Some (Done w')
    /\ appliedConstraints w' = [QUALITY.HIGH; QUALITY.HIGH].
Proof.
  destruct (timeout_fires_after_destroy fiveSecondsLater 1 (1, 5000) eq_refl)
    as (_ & w' & Hstep & _ & Happlied).
  - cbn [snd]. change (now fiveSecondsLater) with 5000. lia.
  - exists w'. split; [exact Hstep |]. rewrite Happlied.
    vm_compute in Hstep. inversion Hstep. reflexivity.
Defined.

Lemma find_after_filter (handle : Z) (pending : list (Z * Z)) :
  List.find (fun t => bool_decide (fst t = handle))
    (filter (fun t => fst t ≠ handle) pending) = None.
Proof.
  induction pending as [|t pending IH]; [reflexivity |].
  rewrite filter_cons. destruct (decide (fst t ≠ handle)) as [Hne | Heq]; [| exact IH].
  cbn [List.find]. rewrite bool_decide_eq_false_2 by exact Hne. exact IH.
Qed.

(** Speaking again, or muting the microphone, pre-empts the end of the grace
    period: once the handler of the change has run, the timeout whose handle
    the throttler held is no longer pending and cannot fire. *)
Theorem held_timeout_cannot_fire_after_preemption (w : World) (handle : Z) :
  _gracePeriodAfterSpeakingTimeout w = Some handle ->
  (speaking (localMediaModel w) = true ->
   step (TimeoutFires handle) (_handleLocalSpeakingChange w) = None)
  /\ (audioEnabled (localMediaModel w) = false ->
      step (TimeoutFires handle) (_handleLocalAudioEnabledChange w) = None).
Proof.
  intros Hheld. split.
  - intros Hspeaking. unfold _handleLocalSpeakingChange. rewrite Hspeaking, Hheld.
    cbn [step]. destruct (_adjustVideoQualityIfNeeded_grace
                            (withSpeakingOrInGrace true
                               (withGraceTimeout None (clearTimeout (Some handle) w))))
      as [_ ->].
    cbn [clearTimeout pendingTimeouts withSpeakingOrInGrace withGraceTimeout withTimeouts].
    rewrite find_after_filter. reflexivity.
  - intros Hmuted. unfold _handleLocalAudioEnabledChange. rewrite Hmuted, Hheld.
    cbn [step]. destruct (_adjustVideoQualityIfNeeded_grace
                            (withSpeakingOrInGrace false
                               (withGraceTimeout None (clearTimeout (Some handle) w))))
      as [_ ->].
    cbn [clearTimeout pendingTimeouts withSpeakingOrInGrace withGraceTimeout withTimeouts].
    rewrite find_after_filter. reflexivity.
Qed.

Lemma held_timeout_cannot_fire_after_preemption_in_grace :
  step (TimeoutFires 7) (withNow 6000 inGraceWorld)
  = Some (Done (gracePeriodAfterSpeakingElapsed
                  (withTimeouts [] 8 (withNow 6000 inGraceWorld))))
  /\ step (TimeoutFires 7)
       (_handleLocalSpeakingChange
          (withLocalMediaModel
             (setAttribute Speaking true (localMediaModel inGraceWorld))
             (withNow 6000 inGraceWorld)))
     = None.
Proof.
  split; [reflexivity |].
  apply (held_timeout_cannot_fire_after_preemption
           (withLocalMediaModel
              (setAttribute Speaking true (localMediaModel inGraceWorld))
              (withNow 6000 inGraceWorld)) 7); reflexivity.
Defined.

(** ** The grace state after construction *)

Lemma timeoutState_adjust (w : World) :
  timeoutState (_adjustVideoQualityIfNeeded w) = timeoutState w.
Proof. rewrite _adjustVideoQualityIfNeeded_frame. reflexivity. Qed.

Lemma timeoutState_speaking_handler (w : World) :
  timeoutState (_handleLocalSpeakingChange w)
  = if speaking (localMediaModel w)
    then (localMediaModel w,
          (now w, true, None,
           pendingTimeouts (clearTimeout (_gracePeriodAfterSpeakingTimeout w) w)),
          nextTimeoutHandle w)
    else (localMediaModel w,
          (now w, _speakingOrInGracePeriodAfterSpeaking w, Some (nextTimeoutHandle w),
           pendingTimeouts w ++ [(nextTimeoutHandle w, now w + 5000)]),
          nextTimeoutHandle w + 1).
Proof.
  unfold _handleLocalSpeakingChange. destruct (speaking (localMediaModel w)).
  - rewrite timeoutState_adjust, clearTimeout_frame. reflexivity.
  - reflexivity.
Qed.

Lemma timeoutState_audio_handler (w : World) :
  timeoutState (_handleLocalAudioEnabledChange w)
  = if audioEnabled (localMediaModel w)
    then timeoutState w
    else (localMediaModel w,
          (now w, false, None,
           pendingTimeouts (clearTimeout (_gracePeriodAfterSpeakingTimeout w) w)),
          nextTimeoutHandle w).
Proof.
  unfold _handleLocalAudioEnabledChange. destruct (audioEnabled (localMediaModel w)).
  - reflexivity.
  - rewrite timeoutState_adjust, clearTimeout_frame. reflexivity.
Qed.

(** The grace state of a new throttler.  When the local video is not
    available nothing is set up.  When it is, the throttler is in its grace
    period exactly when the participant speaks with the microphone on; and
    when the participant is silent with the microphone on, a timeout of 5000
    milliseconds is pending although no grace period is running. *)
Theorem grace_state_after_construction (media : LocalMediaModel)
    (models : list CallParticipantModel) (time : Z) :
  let w := SentVideoQualityThrottler media models time in
  let silent := videoAvailable media && negb (speaking media) && audioEnabled media in
  _speakingOrInGracePeriodAfterSpeaking w
  = videoAvailable media && speaking media && audioEnabled media
  /\ pendingTimeouts w = (if silent then [(1, time + 5000)] else [])
  /\ _gracePeriodAfterSpeakingTimeout w = (if silent then Some 1 else None).
Proof.
  intros w silent.
  assert (Hstate :
    timeoutState w
    = (media,
       (time, videoAvailable media && speaking media && audioEnabled media,
        (if silent then Some 1 else None),
        (if silent then [(1, time + 5000)] else [])),
       (if videoAvailable media && negb (speaking media) then 2 else 1))).
  { subst w silent. unfold SentVideoQualityThrottler.
    destruct media as [available enabled microphone talking].
    cbn [videoAvailable speaking audioEnabled].
    destruct available; [| reflexivity].
    unfold _startListeningToChanges. rewrite subscribe_each_participant.
    rewrite timeoutState_adjust, timeoutState_audio_handler.
    match goal with
    | |- context [timeoutState (_handleLocalSpeakingChange ?x)] => set (subscribed := x)
    end.
    assert (Hmedia : localMediaModel subscribed
                     = {| videoAvailable := true; videoEnabled := enabled;
                          audioEnabled := microphone; speaking := talking |})
      by reflexivity.
    assert (Hnow : now subscribed = time) by reflexivity.
    assert (Hgrace : _speakingOrInGracePeriodAfterSpeaking subscribed = false)
      by reflexivity.
    assert (Hheld : _gracePeriodAfterSpeakingTimeout subscribed = None) by reflexivity.
    assert (Hpending : pendingTimeouts subscribed = []) by reflexivity.
    assert (Hnext : nextTimeoutHandle subscribed = 1) by reflexivity.
    clearbody subscribed.
    pose proof (timeoutState_speaking_handler subscribed) as Hspoke.
    rewrite Hheld in Hspoke. cbn [clearTimeout] in Hspoke.
    rewrite Hmedia, Hnow, Hgrace, Hpending, Hnext in Hspoke.
    cbn [speaking app] in Hspoke.
    rewrite Hspoke. unfold timeoutState, graceState in Hspoke.
    destruct talking;
      injection Hspoke as Hmedia' Hnow' Hgrace' Hheld' Hpending' Hnext';
      rewrite Hmedia', Hnow', Hheld', Hnext', clearTimeout_frame;
      cbn [audioEnabled pendingTimeouts withTimeouts clearTimeout];
      rewrite ?Hpending'; destruct microphone; reflexivity. }
  pose proof (f_equal (fun s => snd (fst (fst (snd (fst s))))) Hstate) as Hgrace.
  pose proof (f_equal (fun s => snd (snd (fst s))) Hstate) as Hpending.
  pose proof (f_equal (fun s => snd (fst (snd (fst s)))) Hstate) as Hheld.
  cbn [timeoutState graceState fst snd] in Hgrace, Hpending, Hheld.
  split; [exact Hgrace |]. split; [exact Hpending | exact Hheld].
Qed.

(** ** Re-evaluation from the handlers of the grace period *)

(** When the participant starts to speak while the local video is available
    and enabled, the constraint applier is called at once with [HIGH],
    whatever the participants and the tables. *)
Theorem speaking_applies_high (w : World) :
  speaking (localMediaModel w) = true ->
  videoAvailable (localMediaModel w) = true ->
  videoEnabled (localMediaModel w) = true ->
  appliedConstraints (_handleLocalSpeakingChange w)
  = appliedConstraints w ++ [QUALITY.HIGH].
Proof.
  intros Hspeaking Havailable Henabled.
  unfold _handleLocalSpeakingChange. rewrite Hspeaking.
  rewrite _adjustVideoQualityIfNeeded_applied, clearTimeout_frame.
  cbn [localMediaModel appliedConstraints withSpeakingOrInGrace withGraceTimeout
       withTimeouts].
  rewrite Havailable, Henabled. reflexivity.
Qed.

Lemma speaking_applies_high_call :
  appliedConstraints
    (_handleLocalSpeakingChange
       (withLocalMediaModel
          (setAttribute Speaking true (localMediaModel (worldOfCall 8 9)))
          (worldOfCall 8 9)))
  = [QUALITY.LOW; QUALITY.HIGH].
Proof.
  rewrite (speaking_applies_high
             (withLocalMediaModel
                (setAttribute Speaking true (localMediaModel (worldOfCall 8 9)))
                (worldOfCall 8 9))); reflexivity.
Defined.

(** When a timeout fires, the throttler leaves its grace period and
    re-evaluates; the timeout is no longer pending and the others are; and the
    throttler still holds the handle it held, that of the fired timeout
    included, since the callback does not reset it. *)
Theorem timeout_fired_effect (w : World) (handle : Z) (o : Outcome) :
  step (TimeoutFires handle) w = Some o ->
  thrown o = None
  /\ _speakingOrInGracePeriodAfterSpeaking (worldOf o) = false
  /\ _gracePeriodAfterSpeakingTimeout (worldOf o) = _gracePeriodAfterSpeakingTimeout w
  /\ pendingTimeout handle (worldOf o) = None
  /\ (forall t, t ∈ pendingTimeouts (worldOf o) <-> t ∈ pendingTimeouts w /\ fst t <> handle)
  /\ appliedConstraints (worldOf o)
     = appliedConstraints w
       ++ (if videoAvailable (localMediaModel w) && videoEnabled (localMediaModel w)
           then [_getQualityForState (worldOf o)] else []).
Proof.
  intros Hstep. cbn [step] in Hstep.
  destruct (List.find _ (pendingTimeouts w)) as [[h due]|]; [| discriminate].
  destruct (due <=? now w); [| discriminate].
  inversion Hstep as [Ho]. clear Hstep Ho. cbn [thrown worldOf].
  unfold gracePeriodAfterSpeakingElapsed, pendingTimeout.
  rewrite _adjustVideoQualityIfNeeded_applied.
  match goal with
  | |- context [_adjustVideoQualityIfNeeded ?x] =>
      rewrite (_adjustVideoQualityIfNeeded_frame x)
  end.
  cbn [_speakingOrInGracePeriodAfterSpeaking _gracePeriodAfterSpeakingTimeout
       pendingTimeouts appliedConstraints localMediaModel
       withAppliedConstraints withSpeakingOrInGrace withTimeouts].
  split; [reflexivity |]. split; [reflexivity |]. split; [reflexivity |].
  split; [apply find_after_filter |]. split; [| reflexivity].
  intros t. rewrite list_elem_of_filter. tauto.
Qed.

(** The timeout of the creation of a quiet participant's throttler fires: the
    throttler still holds its handle. *)
Lemma timeout_fired_effect_five_seconds_later :
  exists o,
    step (TimeoutFires 1) fiveSecondsLater = Some o
    /\ _gracePeriodAfterSpeakingTimeout (worldOf o) = Some 1
    /\ pendingTimeout 1 (worldOf o) = None.
Proof.
  destruct (step (TimeoutFires 1) fiveSecondsLater) as [o|] eqn:Hstep;
    [| vm_compute in Hstep; discriminate].
  exists o. split; [reflexivity |].
  destruct (timeout_fired_effect fiveSecondsLater 1 o Hstep)
    as (_ & _ & Hheld & Hgone & _).
  split; [rewrite Hheld; reflexivity | exact Hgone].
Defined.

(** ** Participants joining and leaving *)

(** The handler of a removal undoes the subscription made by the handler of an
    addition: for a participant model the throttler was not subscribed to, it
    holds after the two handlers the subscriptions it held before; and each of
    the two handlers re-evaluates, so the applier is called twice when the
    local video is available and enabled. *)
Theorem remove_after_add_restores_subscriptions (m : CallParticipantModel) (w : World) :
  participantSubscription m ∉ subscriptions w ->
  let w' := _handleRemoveParticipant m (_handleAddParticipant m w) in
  subscriptions w' = subscriptions w
  /\ length (appliedConstraints w')
     = (length (appliedConstraints w)
        + (if videoAvailable (localMediaModel w) && videoEnabled (localMediaModel w)
           then 2 else 0))%nat.
Proof.
  intros Hfresh w'. subst w'. unfold _handleRemoveParticipant, _handleAddParticipant.
  split.
  - rewrite _adjustVideoQualityIfNeeded_frame.
    cbn [subscriptions withAppliedConstraints emitterOff withSubscriptions].
    rewrite _adjustVideoQualityIfNeeded_frame.
    cbn [subscriptions withAppliedConstraints emitterOn withSubscriptions].
    fold (participantSubscription m).
    rewrite removeFirst_app_fresh by exact Hfresh. apply app_nil_r.
  - rewrite _adjustVideoQualityIfNeeded_applied.
    cbn [localMediaModel appliedConstraints emitterOff withSubscriptions].
    rewrite (_adjustVideoQualityIfNeeded_frame (emitterOn _ _ _ w)) at 1 2 3.
    cbn [localMediaModel appliedConstraints withAppliedConstraints emitterOn
         withSubscriptions].
    rewrite _adjustVideoQualityIfNeeded_applied.
    cbn [localMediaModel appliedConstraints emitterOn withSubscriptions].
    destruct (videoAvailable (localMediaModel w) && videoEnabled (localMediaModel w));
      rewrite !length_app; cbn [length]; lia.
Qed.

Lemma remove_after_add_restores_subscriptions_fresh :
  subscriptions
    (_handleRemoveParticipant
       {| peerId := 9; remoteVideoAvailable := true; remoteAudioAvailable := true |}
       (_handleAddParticipant
          {| peerId := 9; remoteVideoAvailable := true; remoteAudioAvailable := true |}
          freshWorld))
  = subscriptions freshWorld.
Proof.
  apply (remove_after_add_restores_subscriptions
           {| peerId := 9; remoteVideoAvailable := true; remoteAudioAvailable := true |}
           freshWorld).
  vm_compute. intros Hin.
  repeat (apply elem_of_cons in Hin; destruct Hin as [Hin | Hin]; [discriminate |]).
  apply elem_of_nil in Hin. exact Hin.
Defined.
